(** * Survey store and chat relay of the onboarding edge function

    A shallow embedding of the route handlers of the edge function
    (POST/GET/DELETE /responses, GET /responses/stats, POST /chat) and
    the properties of the survey repository and of the chat relay that
    follow from them.

    Layout: JavaScript values as far as the handlers inspect them, the
    ordered key-value store, the survey handlers, the chat relay, the
    vocabulary of the specification, and then the theorems. *)

From stdpp Require Import gmap strings list sorting fin_maps fin_sets pretty.
From Stdlib Require Import ZArith Lia Sorted Permutation.

Local Open Scope Z_scope.
#[local] Set Warnings "-register-all".

(** ** JavaScript values *)

Module Js.

(** A JS number. Every number the handlers compute with is a
    [Date.now()] stamp, a [parseInt] result, a counter or one of the
    sentinels [Infinity] and [0], so the finite ones are integers.  A
    fractional literal inside a request body is only ever tested for
    truthiness and [typeof], where it behaves as any non-zero [Int]. *)
Inductive num : Type :=
| NaN
| PosInf
| NegInf
| Int (z : Z).

(** A parsed JSON body, plus [undefined] for what a property read
    yields when the property is missing.  [Obj] carries the property
    list of the parsed object, one entry per property name. *)
Inductive value : Type :=
| Undefined
| Null
| Bool (b : bool)
| Num (n : num)
| Str (s : string)
| Arr (items : list value)
| Obj (fields : list (string * value)).

Inductive exn : Type :=
| TypeError
| StorageError
| UpstreamError.

(** Outcome of a computation that may throw (or of a promise that may
    reject). *)
Inductive result (A : Type) : Type :=
| Ok (a : A)
| Throw (e : exn).
Arguments Ok {A} a.
Arguments Throw {A} e.

Definition is_ok {A} (r : result A) : bool :=
  match r with Ok _ => true | Throw _ => false end.

(** ToBoolean on numbers: [0] and [NaN] are falsy. *)
Definition truthy_num (n : num) : bool :=
  match n with
  | NaN => false
  | Int z => negb (z =? 0)
  | PosInf | NegInf => true
  end.

Definition truthy_str (s : string) : bool :=
  negb (String.eqb s "").

(** ToBoolean. *)
Definition truthy (v : value) : bool :=
  match v with
  | Undefined | Null => false
  | Bool b => b
  | Num n => truthy_num n
  | Str s => truthy_str s
  | Arr _ | Obj _ => true
  end.

Definition typeof (v : value) : string :=
  match v with
  | Undefined => "undefined"
  | Null | Arr _ | Obj _ => "object"
  | Bool _ => "boolean"
  | Num _ => "number"
  | Str _ => "string"
  end.

Definition isArray (v : value) : bool :=
  match v with Arr _ => true | _ => false end.

Fixpoint lookup_field (p : string) (fields : list (string * value)) : value :=
  match fields with
  | [] => Undefined
  | (q, v) :: rest => if String.eqb q p then v else lookup_field p rest
  end.

(** Reading a named data property [v.p] (also what [const { p } = v]
    does).  It throws on [null] and [undefined]; primitives and
    arrays have none of the property names the handlers read. *)
Definition get (v : value) (p : string) : result value :=
  match v with
  | Undefined | Null => Throw TypeError
  | Obj fields => Ok (lookup_field p fields)
  | Bool _ | Num _ | Str _ | Arr _ => Ok Undefined
  end.

(** [a || b] *)
Definition or (a b : value) : value :=
  if truthy a then a else b.

(** [a < b] and [a >= b] on numbers; both are false when a side is
    [NaN]. *)
Definition lt (a b : num) : bool :=
  match a, b with
  | NaN, _ | _, NaN => false
  | _, NegInf => false
  | NegInf, _ => true
  | PosInf, _ => false
  | Int _, PosInf => true
  | Int x, Int y => x <? y
  end.

Definition ge (a b : num) : bool :=
  match a, b with
  | NaN, _ | _, NaN => false
  | PosInf, _ => true
  | _, NegInf => true
  | _, PosInf => false
  | NegInf, Int _ => false
  | Int x, Int y => y <=? x
  end.

(** [a === b] on numbers. *)
Definition strict_eq_num (a b : num) : bool :=
  match a, b with
  | PosInf, PosInf | NegInf, NegInf => true
  | Int x, Int y => x =? y
  | _, _ => false
  end.

(** [Math.min(a, b)] and [Math.max(a, b)] *)
Definition min (a b : num) : num :=
  match a, b with
  | NaN, _ | _, NaN => NaN
  | NegInf, _ | _, NegInf => NegInf
  | PosInf, x | x, PosInf => x
  | Int x, Int y => Int (Z.min x y)
  end.

Definition max (a b : num) : num :=
  match a, b with
  | NaN, _ | _, NaN => NaN
  | PosInf, _ | _, PosInf => PosInf
  | NegInf, x | x, NegInf => x
  | Int x, Int y => Int (Z.max x y)
  end.

(** [a - b] *)
Definition sub (a b : num) : num :=
  match a, b with
  | NaN, _ | _, NaN => NaN
  | PosInf, PosInf | NegInf, NegInf => NaN
  | PosInf, _ | _, NegInf => PosInf
  | NegInf, _ | _, PosInf => NegInf
  | Int x, Int y => Int (x - y)
  end.

(** Strings.  A JS string is a sequence of UTF-16 code units in which
    a surrogate may stand unpaired (JSON.parse yields one for the
    escape \ud800).  It is kept here as its bytes in generalized UTF-8:
    the UTF-8 bytes of every code point, and for an unpaired surrogate
    the three bytes ED, A0..BF, 80..BF.  Equal JS strings are equal
    byte strings, and where the handlers build a string around one
    they were given, its neighbours are plain characters, so that the
    bytes are simply put side by side. *)
Definition in_range (lo hi : N) (c : Ascii.ascii) : bool :=
  N.leb lo (Ascii.N_of_ascii c) && N.leb (Ascii.N_of_ascii c) hi.

(** The three bytes of an unpaired surrogate. *)
Definition surrogate_bytes (c c1 c2 : Ascii.ascii) : bool :=
  in_range 237 237 c && in_range 160 191 c1 && in_range 128 191 c2.

(** U+FFFD, the replacement character: EF BF BD. *)
Definition replacement : string :=
  String (Ascii.ascii_of_byte Byte.xef)
    (String (Ascii.ascii_of_byte Byte.xbf)
       (String (Ascii.ascii_of_byte Byte.xbd) EmptyString)).

(** What the platform does to a string wherever it encodes it as
    UTF-8 (a string part of a store key, the argument of
    [TextEncoder.encode]): every unpaired surrogate becomes U+FFFD. *)
Fixpoint usv (s : string) : string :=
  match s with
  | EmptyString => EmptyString
  | String c s' =>
      match s' with
      | String c1 (String c2 rest) =>
          if surrogate_bytes c c1 c2 then replacement +:+ usv rest
          else String c (usv s')
      | _ => String c (usv s')
      end
  end.

(** A string with no unpaired surrogate. *)
Definition well_formed (s : string) : Prop := usv s = s.

End Js.

(** ** The ordered key-value store *)

(** The keys this program writes are three-part tuples
    [["responses", timestamp, name]]. *)
Definition KvKey : Type := string * Z * string.

(** The store orders keys part by part: strings bytewise, numbers
    numerically. *)
Definition key_leb (a b : KvKey) : bool :=
  let '(ns1, t1, n1) := a in
  let '(ns2, t2, n2) := b in
  match String.compare ns1 ns2 with
  | Lt => true
  | Gt => false
  | Eq =>
      match Z.compare t1 t2 with
      | Lt => true
      | Gt => false
      | Eq => String.leb n1 n2
      end
  end.

Definition key_le (a b : KvKey) : Prop := key_leb a b = true.

Definition entry_le {V} (e1 e2 : KvKey * V) : Prop := key_le e1.1 e2.1.

#[global] Instance key_le_dec a b : Decision (key_le a b).
Proof. unfold key_le. apply _. Defined.

#[global] Instance entry_le_dec {V} (e1 e2 : KvKey * V) : Decision (entry_le e1 e2).
Proof. unfold entry_le. apply _. Defined.

(** The key as the store keeps it: its string parts encoded as UTF-8,
    and read back as such by a scan. *)
Definition key_usv (k : KvKey) : KvKey :=
  let '(ns, t, n) := k in (Js.usv ns, t, Js.usv n).

(** Which single-key operations the storage backend rejects.  Scans are
    taken to succeed. *)
Record KvFaults : Type := {
  set_fails : KvKey → bool;
  delete_fails : KvKey → bool;
}.

Definition no_faults : KvFaults :=
  {| set_fails := λ _, false; delete_fails := λ _, false |}.

Section kv.
Context {V : Type}.

(** [kv.set(key, value)]: the value goes under the encoded key (last
    write wins there) and is kept as it is. *)
Definition kv_set (f : KvFaults) (k : KvKey) (v : V) (kv : gmap KvKey V)
  : Js.result unit * gmap KvKey V :=
  if set_fails f k then (Js.Throw Js.StorageError, kv)
  else (Js.Ok tt, <[key_usv k := v]> kv).

(** [kv.delete(key)].  The handlers only delete keys a scan has read
    back, which are encoded already. *)
Definition kv_delete (f : KvFaults) (k : KvKey) (kv : gmap KvKey V)
  : Js.result unit * gmap KvKey V :=
  if delete_fails f k then (Js.Throw Js.StorageError, kv)
  else (Js.Ok tt, delete k kv).

(** [kv.list({ prefix: [p] })]: the entries under the prefix, in
    ascending key order.  The handlers consume the list from the
    front, one entry per loop iteration. *)
Definition kv_list (p : string) (kv : gmap KvKey V) : list (KvKey * V) :=
  merge_sort entry_le
    (filter (λ e : KvKey * V, e.1.1.1 = p) (map_to_list kv)).
End kv.

(** ** The survey repository *)

Record Answers : Type := {
  teachLLMs : Js.value;
  syntheticStudents : Js.value;
}.

(** [interface OnboardingResponse].  The handlers read [name] from an
    untyped body; the embedding follows the declared type. *)
Module OnboardingResponse.
Record t : Type := {
  name : string;
  timestamp : Z;
  responses : Answers;
}.
End OnboardingResponse.

Abbreviation Store := (gmap KvKey OnboardingResponse.t).

(** What a handler leaves in [ctx.response]: a status with a JSON
    payload, or a status with [{ error: msg }].  A handler that sets a
    body and no status answers 200. *)
Inductive Reply (A : Type) : Type :=
| Json (status : Z) (payload : A)
| Error (status : Z) (error : string).
Arguments Json {A} status payload.
Arguments Error {A} status error.

Definition internal_error {A} : Reply A := Error 500 "Internal server error".

Definition payload {A} (r : Reply A) : option A :=
  match r with
  | Json _ a => Some a
  | Error _ _ => None
  end.

(** *** POST /responses *)

Record Success : Type := { success : bool }.

(** The handler from the validation of [responses] on; [now] is what
    [Date.now()] returns. *)
Definition post_responses (f : KvFaults) (now : Z) (name : string)
    (responses : Js.value) (kv : Store) : Reply Success * Store :=
  if negb (Js.truthy responses)
     || negb (String.eqb (Js.typeof responses) "object")
  then (Error 400 "Invalid response format", kv)
  else
    match Js.get responses "teachLLMs",
          Js.get responses "syntheticStudents" with
    | Js.Ok t, Js.Ok s =>
        let response :=
          {| OnboardingResponse.name := name;
             OnboardingResponse.timestamp := now;
             OnboardingResponse.responses :=
               {| teachLLMs := Js.or t (Js.Str "");
                  syntheticStudents := Js.or s (Js.Str "") |} |} in
        match kv_set f ("responses", OnboardingResponse.timestamp response, name)
                response kv with
        | (Js.Ok _, kv') => (Json 200 {| success := true |}, kv')
        | (Js.Throw _, kv') => (internal_error, kv')
        end
    | _, _ => (internal_error, kv)
    end.

(** *** GET /responses *)

Module params.
Record t : Type := {
  limit : Js.num;   (* parseInt(... || "100") *)
  offset : Js.num;  (* parseInt(... || "0") *)
  since : Js.num;   (* parseInt(... || "0") *)
  name : option string;  (* searchParams.get("name"): a string or null *)
}.
End params.

(** [{ ...response, key: entry.key }] *)
Record ListedResponse : Type := {
  listed : OnboardingResponse.t;
  key : KvKey;
}.

(** ToBoolean of a [string | null]. *)
Definition truthy_opt (s : option string) : bool :=
  match s with
  | Some s => Js.truthy_str s
  | None => false
  end.

(** [a !== b] for a string [a] and a [string | null] [b]. *)
Definition strict_ne_opt (a : string) (b : option string) : bool :=
  match b with
  | Some b => negb (String.eqb a b)
  | None => true
  end.

(** The [for await] loop over the scan.  [responses], [skipped] and
    [included] are the loop's variables; [scanned] counts the entries
    taken from the iterator, the one piece of bookkeeping the source
    does not have. *)
Fixpoint list_loop (p : params.t) (iter : list (KvKey * OnboardingResponse.t))
    (responses : list ListedResponse) (skipped included : Z) (scanned : nat)
    : list ListedResponse * nat :=
  match iter with
  | [] => (responses, scanned)
  | entry :: iter =>
      let response := entry.2 in
      let scanned := S scanned in
      if Js.truthy_num (params.since p)
         && Js.lt (Js.Int (OnboardingResponse.timestamp response)) (params.since p)
      then list_loop p iter responses skipped included scanned
      else if truthy_opt (params.name p)
              && strict_ne_opt (OnboardingResponse.name response) (params.name p)
      then list_loop p iter responses skipped included scanned
      else if Js.lt (Js.Int skipped) (params.offset p)
      then list_loop p iter responses (skipped + 1) included scanned
      else if Js.ge (Js.Int included) (params.limit p)
      then (responses, scanned)
      else
        list_loop p iter
          (responses ++ [{| listed := response; key := entry.1 |}])
          skipped (included + 1) scanned
  end.

Definition list_scan (p : params.t) (kv : Store) : list ListedResponse * nat :=
  list_loop p (kv_list "responses" kv) [] 0 0 0%nat.

Definition opt_value (s : option string) : Js.value :=
  match s with
  | Some s => Js.Str s
  | None => Js.Null
  end.

Record Metadata : Type := {
  meta_limit : Js.num;
  meta_offset : Js.num;
  count : Z;
  filters_since : Js.value;
  filters_name : Js.value;
}.

Record ListBody : Type := {
  list_responses : list ListedResponse;
  metadata : Metadata;
}.

Definition get_responses (p : params.t) (kv : Store) : Reply ListBody :=
  let responses := (list_scan p kv).1 in
  Json 200
    {| list_responses := responses;
       metadata :=
         {| meta_limit := params.limit p;
            meta_offset := params.offset p;
            count := Z.of_nat (length responses);
            filters_since := Js.or (Js.Num (params.since p)) Js.Null;
            filters_name := Js.or (opt_value (params.name p)) Js.Null |} |}.

(** *** GET /responses/stats *)

Module stats.
Record t : Type := {
  total : Z;
  uniqueNames : gset string;
  first : Js.num;
  last : Js.num;
}.
End stats.

Definition stats_init : stats.t :=
  {| stats.total := 0;
     stats.uniqueNames := ∅;
     stats.first := Js.PosInf;
     stats.last := Js.Int 0 |}.

Definition stats_step (s : stats.t) (entry : KvKey * OnboardingResponse.t) : stats.t :=
  let response := entry.2 in
  {| stats.total := stats.total s + 1;
     stats.uniqueNames := {[ OnboardingResponse.name response ]} ∪ stats.uniqueNames s;
     stats.first := Js.min (stats.first s) (Js.Int (OnboardingResponse.timestamp response));
     stats.last := Js.max (stats.last s) (Js.Int (OnboardingResponse.timestamp response)) |}.

Definition stats_loop (iter : list (KvKey * OnboardingResponse.t)) : stats.t :=
  fold_left stats_step iter stats_init.

Record TimeRange : Type := {
  first : Js.value;
  last : Js.value;
  durationMs : Js.num;
}.

Record StatsBody : Type := {
  total : Z;
  uniqueParticipants : Z;
  timeRange : TimeRange;
}.

Definition get_responses_stats (kv : Store) : Reply StatsBody :=
  let s := stats_loop (kv_list "responses" kv) in
  Json 200
    {| total := stats.total s;
       uniqueParticipants := Z.of_nat (size (stats.uniqueNames s));
       timeRange :=
         {| first := if Js.strict_eq_num (stats.first s) Js.PosInf
                     then Js.Null else Js.Num (stats.first s);
            last := if Js.strict_eq_num (stats.last s) (Js.Int 0)
                    then Js.Null else Js.Num (stats.last s);
            durationMs := Js.sub (stats.last s) (stats.first s) |} |}.

(** *** DELETE /responses/:name *)

(** The scan loop.  Each [kv.delete(entry.key)] is dispatched when its
    entry is met and settles on its own; the promise it returns goes to
    [deleteOps].  The scan runs over the entries listed at its start,
    and the keys deleted are keys it has already passed. *)
Fixpoint delete_loop (f : KvFaults) (name : string)
    (iter : list (KvKey * OnboardingResponse.t))
    (deleteOps : list (Js.result unit)) (count : Z) (kv : Store)
    : list (Js.result unit) * Z * Store :=
  match iter with
  | [] => (deleteOps, count, kv)
  | entry :: iter =>
      let response := entry.2 in
      if String.eqb (OnboardingResponse.name response) name then
        let '(op, kv) := kv_delete f entry.1 kv in
        delete_loop f name iter (deleteOps ++ [op]) (count + 1) kv
      else delete_loop f name iter deleteOps count kv
  end.

(** [await Promise.all(ops)] throws the first rejection. *)
Fixpoint promise_all (ops : list (Js.result unit)) : Js.result unit :=
  match ops with
  | [] => Js.Ok tt
  | Js.Ok _ :: ops => promise_all ops
  | Js.Throw e :: _ => Js.Throw e
  end.

Record DeleteBody : Type := {
  delete_success : bool;
  deleted : Z;
  message : string;
}.

(** [name] is [ctx.params.name], a string or undefined. *)
Definition delete_responses_name (f : KvFaults) (name : option string)
    (kv : Store) : Reply DeleteBody * Store :=
  if negb (truthy_opt name) then (Error 400 "Name parameter is required", kv)
  else
    let name := default "" name in
    let '(deleteOps, count, kv') :=
      delete_loop f name (kv_list "responses" kv) [] 0 kv in
    match promise_all deleteOps with
    | Js.Ok _ =>
        (Json 200
           {| delete_success := true;
              deleted := count;
              message := "Deleted " +:+ pretty count +:+ " responses for " +:+ name |},
         kv')
    | Js.Throw _ => (internal_error, kv')
    end.

(** ** The chat relay *)

(** A streamed completion chunk, as far as the relay reads it. *)
Record Delta : Type := { content : option string }.  (* string, null or undefined *)
Record Choice : Type := { delta : option Delta }.
Record Chunk : Type := { choices : list Choice }.

(** [chunk.choices[0]?.delta?.content] *)
Definition chunk_content (chunk : Chunk) : option string :=
  match choices chunk with
  | [] => None
  | choice :: _ =>
      match delta choice with
      | Some d => content d
      | None => None
      end
  end.

(** How the upstream iteration ends: by natural closure, or by throwing
    after the chunks it has yielded. *)
Inductive StreamEnd : Type :=
| NaturalEnd
| Fails.

Record UpstreamStream : Type := {
  chunks : list Chunk;
  ending : StreamEnd;
}.

(** The outbound [ReadableStream] seen through its default controller.
    [enqueued] logs every chunk the controller accepted, in order. *)
Inductive StreamState : Type :=
| Readable
| Closed
| Errored.

Record Controller : Type := {
  state : StreamState;
  enqueued : list (list Byte.byte);
}.

Definition new_stream : Controller :=
  {| state := Readable; enqueued := [] |}.

(** [controller.enqueue(chunk)]: a stream that is no longer readable
    refuses the chunk with a TypeError. *)
Definition controller_enqueue (chunk : list Byte.byte) (c : Controller)
    : Js.result unit * Controller :=
  match state c with
  | Readable =>
      (Js.Ok tt, {| state := Readable; enqueued := enqueued c ++ [chunk] |})
  | Closed | Errored => (Js.Throw Js.TypeError, c)
  end.

(** [controller.error(e)]: errors a readable stream, and does nothing
    to one that is closed or errored already. *)
Definition controller_error (c : Controller) : Controller :=
  match state c with
  | Readable => {| state := Errored; enqueued := enqueued c |}
  | Closed | Errored => c
  end.

(** [controller.close()]: closes a readable stream, and throws a
    TypeError on one that is closed or errored already. *)
Definition controller_close (c : Controller) : Js.result unit * Controller :=
  match state c with
  | Readable => (Js.Ok tt, {| state := Closed; enqueued := enqueued c |})
  | Closed | Errored => (Js.Throw Js.TypeError, c)
  end.

(** [new TextEncoder().encode(s)]: the UTF-8 bytes of [s], its
    unpaired surrogates replaced by U+FFFD. *)
Definition encode (s : string) : list Byte.byte :=
  String.list_byte_of_string (Js.usv s).

Definition LF : string := String (Ascii.ascii_of_byte Byte.x0a) EmptyString.

(** [`data: ${content}\n\n`] *)
Definition data_frame (content : string) : string :=
  "data: " +:+ content +:+ LF +:+ LF.

(** The [for await (const chunk of stream)] loop. *)
Fixpoint relay_loop (chunks : list Chunk) (c : Controller)
    : Js.result unit * Controller :=
  match chunks with
  | [] => (Js.Ok tt, c)
  | chunk :: chunks =>
      let content := chunk_content chunk in
      if truthy_opt content then
        match controller_enqueue (encode (data_frame (default "" content))) c with
        | (Js.Ok _, c) => relay_loop chunks c
        | (Js.Throw e, c) => (Js.Throw e, c)
        end
      else relay_loop chunks c
  end.

(** [start(controller)]: the try block, the catch clause, the finally
    clause.  The result is the settlement of the promise [start]
    returns. *)
Definition start (stream : UpstreamStream) (c : Controller)
    : Js.result unit * Controller :=
  let '(r, c) :=
    match relay_loop (chunks stream) c with
    | (Js.Ok _, c) =>
        match ending stream with
        | NaturalEnd => controller_enqueue (encode (data_frame "[DONE]")) c
        | Fails => (Js.Throw Js.UpstreamError, c)
        end
    | (Js.Throw e, c) => (Js.Throw e, c)
    end in
  let c :=
    match r with
    | Js.Ok _ => c
    | Js.Throw _ => controller_error c
    end in
  controller_close c.

(** The argument of [openai.chat.completions.create]. *)
Record CreateCall : Type := {
  model : string;
  messages : Js.value;
  stream : bool;
}.

Inductive ChatReply : Type :=
| ChatError (status : Z) (error : string)
| ChatStream (started : Js.result unit) (readable : Controller).

Section chat.
Variable modelName : string.
(** The upstream collaborator: a call either throws or hands back a
    stream. *)
Variable create : CreateCall → Js.result UpstreamStream.

(** POST /chat on a parsed body.  Next to the reply it returns the log
    of the calls made to the upstream collaborator. *)
Definition post_chat (body : Js.value) : ChatReply * list CreateCall :=
  match Js.get body "messages" with
  | Js.Throw _ => (ChatError 500 "Internal server error", [])
  | Js.Ok messages =>
      if negb (Js.truthy messages) || negb (Js.isArray messages)
      then (ChatError 400 "Invalid messages format", [])
      else
        let call :=
          {| model := modelName; messages := messages; stream := true |} in
        match create call with
        | Js.Throw _ => (ChatError 500 "Internal server error", [call])
        | Js.Ok stream =>
            let '(started, readable) := start stream new_stream in
            (ChatStream started readable, [call])
        end
  end.
End chat.

(** ** Histories of the store *)

(** The two operations that change the store, with what each takes
    from its environment. *)
Inductive Op : Type :=
| Write (f : KvFaults) (now : Z) (name : string) (responses : Js.value)
| DeleteByName (f : KvFaults) (name : option string).

Definition run_op (op : Op) (kv : Store) : Store :=
  match op with
  | Write f now name responses => (post_responses f now name responses kv).2
  | DeleteByName f name => (delete_responses_name f name kv).2
  end.

Definition run_ops (ops : list Op) (kv : Store) : Store :=
  fold_left (λ kv op, run_op op kv) ops kv.

(** ** Vocabulary of the specification *)

(** The key of an entry is built from the record it holds. *)
Definition key_matches (k : KvKey) (r : OnboardingResponse.t) : Prop :=
  k = ("responses", OnboardingResponse.timestamp r, OnboardingResponse.name r).

Definition keys_match (kv : Store) : Prop := map_Forall key_matches kv.

(** The key of an entry as the store derives it from the record: the
    name encoded. *)
Definition key_encodes (k : KvKey) (r : OnboardingResponse.t) : Prop :=
  k = ("responses", OnboardingResponse.timestamp r,
       Js.usv (OnboardingResponse.name r)).

Definition keys_encode (kv : Store) : Prop := map_Forall key_encodes kv.

(** A structured value: an object or an array. *)
Definition structured (v : Js.value) : bool :=
  match v with
  | Js.Arr _ | Js.Obj _ => true
  | _ => false
  end.

(** The record a write stores when neither answer is given. *)
Definition blank_response (now : Z) (name : string) : OnboardingResponse.t :=
  {| OnboardingResponse.name := name;
     OnboardingResponse.timestamp := now;
     OnboardingResponse.responses :=
       {| teachLLMs := Js.Str ""; syntheticStudents := Js.Str "" |} |}.

(** The record a write stores for accepted answers: each field as
    given when truthy, the empty string otherwise. *)
Definition answer (responses : Js.value) (field : string) : Js.value :=
  match responses with
  | Js.Obj fields => Js.or (Js.lookup_field field fields) (Js.Str "")
  | _ => Js.Str ""
  end.

Definition stored_response (now : Z) (name : string) (responses : Js.value)
    : OnboardingResponse.t :=
  {| OnboardingResponse.name := name;
     OnboardingResponse.timestamp := now;
     OnboardingResponse.responses :=
       {| teachLLMs := answer responses "teachLLMs";
          syntheticStudents := answer responses "syntheticStudents" |} |}.

(** Truthy and of object type. *)
Definition accepted (responses : Js.value) : bool :=
  Js.truthy responses && String.eqb (Js.typeof responses) "object".

(** The entries a delete-by-name scan matches, and those it removes:
    the matched ones whose delete the backend does not reject. *)
Definition named (name : string) (e : KvKey * OnboardingResponse.t) : bool :=
  String.eqb (OnboardingResponse.name e.2) name.

Definition removed (f : KvFaults) (name : string)
    (e : KvKey * OnboardingResponse.t) : bool :=
  String.eqb e.1.1.1 "responses" && named name e && negb (delete_fails f e.1).

(** How the delete dispatched for an entry settles, and the store once
    every dispatched delete has settled. *)
Definition settle (f : KvFaults) (e : KvKey * OnboardingResponse.t)
    : Js.result unit :=
  if delete_fails f e.1 then Js.Throw Js.StorageError else Js.Ok tt.

Definition sweep (f : KvFaults) (kv : Store)
    (l : list (KvKey * OnboardingResponse.t)) : Store :=
  foldl (λ kv e, (kv_delete f e.1 kv).2) kv l.

Definition delete_message (count : Z) (name : string) : string :=
  "Deleted " +:+ pretty count +:+ " responses for " +:+ name.

(** A string made of bytes below 0x80. *)
Fixpoint plain (s : string) : bool :=
  match s with
  | EmptyString => true
  | String c s => N.ltb (Ascii.N_of_ascii c) 128 && plain s
  end.

(** The filters of [list] as the specification words them. *)
Definition passes_since (since : Z) (r : OnboardingResponse.t) : bool :=
  since <=? OnboardingResponse.timestamp r.

Definition passes_name (name : option string) (r : OnboardingResponse.t) : bool :=
  match name with
  | Some n => String.eqb (OnboardingResponse.name r) n
  | None => true
  end.

Definition passes (since : Z) (name : option string)
    (e : KvKey * OnboardingResponse.t) : bool :=
  passes_since since e.2 && passes_name name e.2.

(** The filters as the guards of the loop apply them: a [since] of 0
    and an empty [name] switch the filter off. *)
Definition selected (since : Z) (name : option string)
    (e : KvKey * OnboardingResponse.t) : bool :=
  ((since =? 0) || passes_since since e.2)
  && (negb (truthy_opt name) || passes_name name e.2).

(** Skip [offset] entries, keep at most [limit]. *)
Definition page {A} (limit offset : Z) (l : list A) : list A :=
  take (Z.to_nat limit) (drop (Z.to_nat offset) l).

Definition to_listed (e : KvKey * OnboardingResponse.t) : ListedResponse :=
  {| listed := e.2; key := e.1 |}.

(** How many entries are taken from the front of [l] until [n] of them
    satisfying [pass] have been taken; all of [l] when it holds fewer. *)
Fixpoint consumed_until {A} (pass : A → bool) (n : nat) (l : list A) : nat :=
  match l with
  | [] => 0%nat
  | e :: l =>
      match n with
      | O => 0%nat
      | S n' => S (consumed_until pass (if pass e then n' else n) l)
      end
  end.

(** Smallest and largest timestamp of a list of entries. *)
Definition min_timestamp (l : list (KvKey * OnboardingResponse.t)) : option Z :=
  foldr (λ e acc, Some (from_option (Z.min (OnboardingResponse.timestamp e.2))
                                    (OnboardingResponse.timestamp e.2) acc))
        None l.

Definition max_timestamp (l : list (KvKey * OnboardingResponse.t)) : option Z :=
  foldr (λ e acc, Some (from_option (Z.max (OnboardingResponse.timestamp e.2))
                                    (OnboardingResponse.timestamp e.2) acc))
        None l.

(** A timestamp, or null when there is none. *)
Definition absent_or (t : option Z) : Js.value :=
  match t with
  | Some t => Js.Num (Js.Int t)
  | None => Js.Null
  end.

(** [last - first] in terms of the two: with no record it is
    [0 - Infinity]. *)
Definition duration (first last : option Z) : Js.num :=
  match first, last with
  | Some a, Some b => Js.Int (b - a)
  | _, _ => Js.NegInf
  end.

Definition distinct_names (l : list (KvKey * OnboardingResponse.t)) : nat :=
  length (remove_dups (map (λ e, OnboardingResponse.name e.2) l)).

(** The text of the chunks that carry non-empty text. *)
Fixpoint texts (chunks : list Chunk) : list string :=
  match chunks with
  | [] => []
  | chunk :: chunks =>
      match chunk_content chunk with
      | Some s => if Js.truthy_str s then s :: texts chunks else texts chunks
      | None => texts chunks
      end
  end.

Definition frame (text : string) : list Byte.byte := encode (data_frame text).

(** A chunk whose first choice carries the text [s]. *)
Definition fragment (s : string) : Chunk :=
  {| choices := [{| delta := Some {| content := Some s |} |}] |}.

(** A role/content turn, and a sequence of them. *)
Definition is_turn (v : Js.value) : bool :=
  match v with
  | Js.Obj fields =>
      match Js.lookup_field "role" fields, Js.lookup_field "content" fields with
      | Js.Str _, Js.Str _ => true
      | _, _ => false
      end
  | _ => false
  end.

Definition is_turn_sequence (v : Js.value) : bool :=
  match v with
  | Js.Arr items => forallb is_turn items
  | _ => false
  end.

(** ** Sample data *)

Definition integer_params (limit offset since : Z) (name : option string)
    : params.t :=
  {| params.limit := Js.Int limit;
     params.offset := Js.Int offset;
     params.since := Js.Int since;
     params.name := name |}.

(** Three writes with empty answers: a at 1, b at 2, b at 3. *)
Definition store_abb : Store :=
  run_ops [Write no_faults 1 "a" (Js.Obj []);
           Write no_faults 2 "b" (Js.Obj []);
           Write no_faults 3 "b" (Js.Obj [])] ∅.

(** Three writes with empty answers: a at 1, b at 2, a at 3. *)
Definition store_aba : Store :=
  run_ops [Write no_faults 1 "a" (Js.Obj []);
           Write no_faults 2 "b" (Js.Obj []);
           Write no_faults 3 "a" (Js.Obj [])] ∅.

(** A backend that rejects the delete of one key. *)
Definition delete_rejected (k : KvKey) : KvFaults :=
  {| set_fails := λ _, false; delete_fails := λ k', bool_decide (k' = k) |}.

(** An upstream that answers every call with an empty stream. *)
Definition silent_upstream (call : CreateCall) : Js.result UpstreamStream :=
  Js.Ok {| chunks := []; ending := NaturalEnd |}.

(** A name that is one unpaired surrogate, U+D800: the bytes ED A0 80. *)
Definition lone_surrogate : string :=
  String (Ascii.ascii_of_byte Byte.xed)
    (String (Ascii.ascii_of_byte Byte.xa0)
       (String (Ascii.ascii_of_byte Byte.x80) EmptyString)).

(** Another one, U+D801: the bytes ED A0 81. *)
Definition other_surrogate : string :=
  String (Ascii.ascii_of_byte Byte.xed)
    (String (Ascii.ascii_of_byte Byte.xa0)
       (String (Ascii.ascii_of_byte Byte.x81) EmptyString)).

(** One write of empty answers at 1 for the name U+D800. *)
Definition store_lone : Store :=
  run_ops [Write no_faults 1 lone_surrogate (Js.Obj [])] ∅.

(** The fragments "Hel" and "lo". *)
Definition hello_chunks : list Chunk := [fragment "Hel"; fragment "lo"].

Definition hello_upstream (call : CreateCall) : Js.result UpstreamStream :=
  Js.Ok {| chunks := hello_chunks; ending := NaturalEnd |}.

(** A body with one well-formed turn, and one whose [messages] is the
    array [[5]]. *)
Definition one_turn : Js.value :=
  Js.Arr [Js.Obj [("role", Js.Str "user"); ("content", Js.Str "hi")]].

Definition turnless : Js.value := Js.Arr [Js.Num (Js.Int 5)].

Definition body_of (messages : Js.value) : Js.value :=
  Js.Obj [("messages", messages)].

(** ** Further handlers *)

(** *** GET /responses: reading the query string *)

(** [url.searchParams.get(k)]: the first value given for [k], or null. *)
Fixpoint searchParams_get (query : list (string * string)) (k : string)
    : option string :=
  match query with
  | [] => None
  | (k', v) :: query =>
      if String.eqb k' k then Some v else searchParams_get query k
  end.

(** [s || d] for a [string | null] [s]. *)
Definition or_string (s : option string) (d : string) : string :=
  match s with
  | Some s => if Js.truthy_str s then s else d
  | None => d
  end.

Section query.
(** The builtin [parseInt], taken as given. *)
Variable parseInt : string → Js.num.

Definition read_params (query : list (string * string)) : params.t :=
  {| params.limit := parseInt (or_string (searchParams_get query "limit") "100");
     params.offset := parseInt (or_string (searchParams_get query "offset") "0");
     params.since := parseInt (or_string (searchParams_get query "since") "0");
     params.name := searchParams_get query "name" |}.

(** The handler from the request URL on. *)
Definition get_responses_url (query : list (string * string)) (kv : Store)
    : Reply ListBody :=
  get_responses (read_params query) kv.
End query.

(** *** GET /responses, the first variant (main.ts) *)

Fixpoint plain_loop (iter : list (KvKey * OnboardingResponse.t))
    (responses : list OnboardingResponse.t) : list OnboardingResponse.t :=
  match iter with
  | [] => responses
  | entry :: iter => plain_loop iter (responses ++ [entry.2])
  end.

Definition get_responses_plain (kv : Store) : Reply (list OnboardingResponse.t) :=
  Json 200 (plain_loop (kv_list "responses" kv) []).

(** *** POST /chat with the response headers *)

Inductive ChatBody : Type :=
| BodyError (error : string)
| BodyStream (started : Js.result unit) (readable : Controller).

(** [ctx.response] after the handler: the status when the handler set
    one, the headers it set, the body. *)
Record ChatResponse : Type := {
  chat_status : option Z;
  chat_headers : gmap string string;
  chat_body : ChatBody;
}.

Definition cors_header (h : gmap string string) : gmap string string :=
  <["Access-Control-Allow-Origin" := "*"]> h.

Definition sse_headers (h : gmap string string) : gmap string string :=
  <["Connection" := "keep-alive"]>
    (<["Cache-Control" := "no-cache"]>
       (<["Content-Type" := "text/event-stream"]> h)).

Section chat_ctx.
Variable modelName : string.
Variable create : CreateCall → Js.result UpstreamStream.

(** The whole handler; [parsed] is the outcome of
    [ctx.request.body.json()]. *)
Definition post_chat_ctx (parsed : Js.result Js.value)
    : ChatResponse * list CreateCall :=
  let h := cors_header ∅ in
  let failed h calls :=
    ({| chat_status := Some 500; chat_headers := h;
        chat_body := BodyError "Internal server error" |}, calls) in
  match parsed with
  | Js.Throw _ => failed h []
  | Js.Ok body =>
      match Js.get body "messages" with
      | Js.Throw _ => failed h []
      | Js.Ok messages =>
          if negb (Js.truthy messages) || negb (Js.isArray messages)
          then ({| chat_status := Some 400; chat_headers := h;
                   chat_body := BodyError "Invalid messages format" |}, [])
          else
            let h := sse_headers h in
            let call :=
              {| model := modelName; messages := messages; stream := true |} in
            match create call with
            | Js.Throw _ => failed h [call]
            | Js.Ok stream =>
                let '(started, readable) := start stream new_stream in
                ({| chat_status := None; chat_headers := h;
                    chat_body := BodyStream started readable |}, [call])
            end
      end
  end.
End chat_ctx.

(** ** Further vocabulary *)

(** An answer field as a write leaves it: truthy, or the empty string. *)
Definition defaulted (v : Js.value) : Prop :=
  Js.truthy v = true ∨ v = Js.Str "".

Definition answers_defaulted (r : OnboardingResponse.t) : Prop :=
  defaulted (teachLLMs (OnboardingResponse.responses r))
  ∧ defaulted (syntheticStudents (OnboardingResponse.responses r)).

(** The [messages] a body sends upstream, if any. *)
Definition forwarded (body : Js.value) : option Js.value :=
  match Js.get body "messages" with
  | Js.Ok (Js.Arr items) => Some (Js.Arr items)
  | _ => None
  end.

(** What a chat reply with headers amounts to without them. *)
Definition plain_reply (r : ChatResponse) : ChatReply :=
  match chat_body r with
  | BodyError e => ChatError (default 200 (chat_status r)) e
  | BodyStream started readable => ChatStream started readable
  end.

(** The keys of a listing. *)
Definition listed_keys (rs : list ListedResponse) : list KvKey := map key rs.

Definition listed_timestamps (rs : list ListedResponse) : list Z :=
  map (λ r, OnboardingResponse.timestamp (listed r)) rs.

(** A stand-in for [parseInt] that knows the two default strings. *)
Definition parseInt_defaults (s : string) : Js.num :=
  if String.eqb s "100" then Js.Int 100
  else if String.eqb s "0" then Js.Int 0
  else Js.NaN.

(** The number of records under the prefix. *)
Definition records (kv : Store) : Z :=
  Z.of_nat (length (kv_list "responses" kv)).

(** A sound backend. *)
Definition sound (f : KvFaults) : Prop := ∀ k, delete_fails f k = false.

(** * Properties *)

(** ** Strings *)

Lemma surrogate_bytes_inv (c c1 c2 : Ascii.ascii) :
  Js.surrogate_bytes c c1 c2 = true →
  (Ascii.N_of_ascii c = 237
   ∧ 160 ≤ Ascii.N_of_ascii c1 ≤ 191
   ∧ 128 ≤ Ascii.N_of_ascii c2 ≤ 191)%N.
Proof.
  unfold Js.surrogate_bytes, Js.in_range.
  rewrite !andb_true_iff, !N.leb_le. lia.
Qed.

Lemma usv_3 (c c1 c2 : Ascii.ascii) (rest : string) :
  Js.usv (String c (String c1 (String c2 rest))) =
  if Js.surrogate_bytes c c1 c2 then Js.replacement +:+ Js.usv rest
  else String c (Js.usv (String c1 (String c2 rest))).
Proof. reflexivity. Qed.

Lemma usv_cons (c : Ascii.ascii) (s : string) :
  Js.usv (String c s) = String c (Js.usv s)
  ∨ ∃ c1 c2 rest,
      s = String c1 (String c2 rest)
      ∧ Js.surrogate_bytes c c1 c2 = true
      ∧ Js.usv (String c s) = Js.replacement +:+ Js.usv rest.
Proof.
  destruct s as [|c1 [|c2 rest]]; [by left | by left |].
  rewrite usv_3. destruct (Js.surrogate_bytes c c1 c2) eqn:E; [right | by left].
  by exists c1, c2, rest.
Qed.

Lemma usv_cons_plain (c : Ascii.ascii) (s : string) :
  N.ltb (Ascii.N_of_ascii c) 128 = true →
  Js.usv (String c s) = String c (Js.usv s).
Proof.
  intros Hc. destruct (usv_cons c s) as [H|(c1 & c2 & rest & _ & Hs & _)]; [done|].
  apply N.ltb_lt in Hc. apply surrogate_bytes_inv in Hs. lia.
Qed.

(** Only a string that is plain already encodes to a plain string. *)
Lemma usv_plain_inv (s a : string) : plain a = true → Js.usv s = a → s = a.
Proof.
  revert a. induction s as [|c s IH]; intros a Ha Hs; [done|].
  destruct (usv_cons c s) as [H|(c1 & c2 & rest & _ & _ & H)];
    rewrite H in Hs; subst a.
  - cbn [plain] in Ha. apply andb_true_iff in Ha as [_ Ha].
    f_equal. by apply IH.
  - discriminate Ha.
Qed.

Lemma usv_plain (s : string) : plain s = true → Js.usv s = s.
Proof.
  induction s as [|c s IH]; [done|]. cbn [plain].
  intros [Hc Hs]%andb_true_iff. rewrite usv_cons_plain by done.
  f_equal. by apply IH.
Qed.

(** ** The store's scan *)

Lemma key_leb_total (a b : KvKey) : key_leb a b = true ∨ key_leb b a = true.
Proof.
  destruct a as [[ns1 t1] n1], b as [[ns2 t2] n2]; simpl.
  rewrite (String.compare_antisym ns2 ns1), (Z.compare_antisym t1 t2).
  destruct (String.compare ns1 ns2); simpl; auto.
  destruct (t1 ?= t2); simpl; auto.
  apply String.leb_total.
Qed.

#[global] Instance entry_le_total {V} : Total (@entry_le V).
Proof. intros e1 e2. apply key_leb_total. Qed.

Lemma string_compare_refl (s : string) : String.compare s s = Eq.
Proof.
  induction s as [|c s IH]; simpl; [done|].
  unfold Ascii.compare. by rewrite N.compare_refl.
Qed.

(** Under one namespace the key order is the timestamp order first. *)
Lemma key_le_timestamp (ns : string) (t1 t2 : Z) (n1 n2 : string) :
  key_le (ns, t1, n1) (ns, t2, n2) → t1 ≤ t2.
Proof.
  unfold key_le; simpl. rewrite string_compare_refl.
  destruct (Z.compare_spec t1 t2); intros ?; first [lia | discriminate].
Qed.

Lemma kv_list_sorted {V} (p : string) (kv : gmap KvKey V) :
  Sorted entry_le (kv_list p kv).
Proof. apply Sorted_merge_sort; apply _. Qed.

Lemma kv_list_perm {V} (p : string) (kv : gmap KvKey V) :
  kv_list p kv ≡ₚ filter (λ e : KvKey * V, e.1.1.1 = p) (map_to_list kv).
Proof. apply merge_sort_Permutation. Qed.

Lemma elem_of_kv_list {V} (p : string) (kv : gmap KvKey V) (k : KvKey) (v : V) :
  (k, v) ∈ kv_list p kv ↔ kv !! k = Some v ∧ k.1.1 = p.
Proof.
  rewrite kv_list_perm, list_elem_of_filter, elem_of_map_to_list. simpl. tauto.
Qed.

(** ** GET /responses *)

Section list_loop.
Variables (L O T : Z) (nm : option string).

Local Abbreviation p := (integer_params L O T nm).

Lemma guards_selected (e : KvKey * OnboardingResponse.t) :
  (Js.truthy_num (params.since p)
   && Js.lt (Js.Int (OnboardingResponse.timestamp e.2)) (params.since p))
  || (truthy_opt (params.name p)
      && strict_ne_opt (OnboardingResponse.name e.2) (params.name p))
  = negb (selected T nm e).
Proof.
  unfold selected, passes_since, passes_name, integer_params; simpl.
  destruct nm as [n|]; simpl;
    destruct (T =? 0), (Z.ltb_spec (OnboardingResponse.timestamp e.2) T),
      (Z.leb_spec T (OnboardingResponse.timestamp e.2)); simpl; try lia;
    try reflexivity;
    destruct (Js.truthy_str n), (String.eqb (OnboardingResponse.name e.2) n);
    reflexivity.
Qed.

(** Where the guards and the worded filters agree. *)
Lemma selected_passes (e : KvKey * OnboardingResponse.t) :
  T ≠ 0 ∨ 0 ≤ OnboardingResponse.timestamp e.2 →
  nm ≠ Some "" →
  selected T nm e = passes T nm e.
Proof.
  unfold selected, passes, passes_since. intros HT Hnm. f_equal.
  - destruct (Z.eqb_spec T 0) as [->|]; [|done].
    simpl. symmetry. apply Z.leb_le. by destruct HT.
  - destruct nm as [n|]; [|done]. simpl. unfold Js.truthy_str.
    destruct (String.eqb_spec n ""); [congruence|done].
Qed.

Lemma consumed_until_0 {A} (pass : A → bool) (l : list A) :
  consumed_until pass 0 l = 0%nat.
Proof. by destruct l. Qed.

Lemma list_loop_spec (iter : list (KvKey * OnboardingResponse.t)) :
  ∀ (acc : list ListedResponse) (s i : Z) (n : nat),
    list_loop p iter acc s i n =
    (acc ++ map to_listed
              (take (Z.to_nat (L - i))
                 (drop (Z.to_nat (O - s)) (filter (selected T nm) iter))),
     (n + consumed_until (selected T nm)
            (S (Z.to_nat (O - s) + Z.to_nat (L - i))) iter)%nat).
Proof.
  induction iter as [|e iter IH]; intros acc s i n.
  - cbn [list_loop consumed_until]. rewrite filter_nil, drop_nil, take_nil.
    simpl. by rewrite app_nil_r, Nat.add_0_r.
  - cbn [list_loop consumed_until].
    pose proof (guards_selected e) as G.
    destruct (Js.truthy_num (params.since p)
              && Js.lt (Js.Int (OnboardingResponse.timestamp e.2)) (params.since p)) eqn:G1.
    { simpl in G. symmetry in G. apply negb_true_iff in G.
      rewrite IH, filter_cons_False, G by (rewrite G; simpl; tauto).
      f_equal. lia. }
    destruct (truthy_opt (params.name p)
              && strict_ne_opt (OnboardingResponse.name e.2) (params.name p)) eqn:G2.
    { simpl in G. symmetry in G. apply negb_true_iff in G.
      rewrite IH, filter_cons_False, G by (rewrite G; simpl; tauto).
      f_equal. lia. }
    simpl in G. symmetry in G. apply negb_false_iff in G.
    rewrite filter_cons_True, G by (rewrite G; simpl; tauto).
    cbn [integer_params params.offset params.limit Js.lt Js.ge].
    destruct (Z.ltb_spec s O) as [Hs|Hs].
    { rewrite IH.
      replace (Z.to_nat (O - s)) with (S (Z.to_nat (O - (s + 1)))) by lia.
      cbn [drop Nat.add]. f_equal. lia. }
    replace (Z.to_nat (O - s)) with 0%nat by lia. cbn [drop].
    destruct (Z.leb_spec L i) as [Hi|Hi].
    { replace (Z.to_nat (L - i)) with 0%nat by lia.
      simpl. rewrite consumed_until_0, app_nil_r. f_equal. lia. }
    rewrite IH.
    replace (Z.to_nat (O - s)) with 0%nat by lia. cbn [drop].
    replace (Z.to_nat (L - i)) with (S (Z.to_nat (L - (i + 1)))) by lia.
    cbn [take map Nat.add]. rewrite <- app_assoc. simpl. f_equal.
    rewrite Nat.add_succ_r. lia.
Qed.

End list_loop.

(** C1, as amended: for every store state and every filter with integer
    limit, offset and since, [list] scans the "responses" prefix in
    ascending key order and returns exactly the entries that pass the
    since filter (timestamp >= since, a since of 0 meaning no filter)
    and the name filter (name equality, an empty name meaning no
    filter), after skipping the first [offset] entries that pass, and at
    most [limit] of them.  The scan does not halt when [limit] records
    have been collected: it stops at the next entry that passes the
    filters, the (offset + limit + 1)-th, or at the end of the store. *)
Theorem list_pages_selected_entries (kv : Store) (L O T : Z) (nm : option string) :
  let entries := kv_list "responses" kv in
  let wanted := map to_listed (page L O (filter (selected T nm) entries)) in
  Sorted entry_le entries
  ∧ entries ≡ₚ filter (λ e : KvKey * OnboardingResponse.t, e.1.1.1 = "responses")
                 (map_to_list kv)
  ∧ list_scan (integer_params L O T nm) kv =
      (wanted,
       consumed_until (selected T nm) (S (Z.to_nat O + Z.to_nat L)) entries)
  ∧ list_responses <$> payload (get_responses (integer_params L O T nm) kv) =
      Some wanted.
Proof.
  intros entries pg.
  assert (list_scan (integer_params L O T nm) kv =
          (pg, consumed_until (selected T nm) (S (Z.to_nat O + Z.to_nat L)) entries))
    as Hscan.
  { unfold list_scan. rewrite list_loop_spec. simpl.
    by rewrite !Z.sub_0_r. }
  split; [apply kv_list_sorted|]. split; [apply kv_list_perm|].
  split; [exact Hscan|].
  unfold get_responses. by rewrite Hscan.
Qed.

(** C1, as stated, fails.  On the store holding a at 1, b at 2 and b at
    3: with limit 1 and name "a" the one wanted record is collected
    from the first entry, where a scan halting on the limit would stop,
    but the loop reads all three entries; and with the empty name as
    filter no record has that name, yet all three are returned. *)
Lemma list_overruns_limit_and_ignores_empty_name :
  list_scan (integer_params 1 0 0 (Some "a")) store_abb =
    ([to_listed (("responses", 1, "a"), blank_response 1 "a")], 3%nat)
  ∧ consumed_until (passes 0 (Some "a")) 1 (kv_list "responses" store_abb) = 1%nat
  ∧ map (λ r, OnboardingResponse.name (listed r))
      (list_scan (integer_params 100 0 0 (Some "")) store_abb).1 = ["a"; "b"; "b"]
  ∧ filter (passes 0 (Some "")) (kv_list "responses" store_abb) = [].
Proof. vm_compute. repeat split. Qed.

(** ** POST /responses *)

Lemma accepted_structured (r : Js.value) : accepted r = structured r.
Proof.
  unfold accepted. destruct r; simpl; rewrite ?andb_false_r; reflexivity.
Qed.

Lemma post_responses_rejected (f : KvFaults) (now : Z) (name : string)
    (r : Js.value) (kv : Store) :
  accepted r = false →
  post_responses f now name r kv = (Error 400 "Invalid response format", kv).
Proof.
  unfold accepted, post_responses. intros H.
  apply andb_false_iff in H.
  destruct H as [-> | ->]; simpl; [done|]. by rewrite orb_true_r.
Qed.

Lemma post_responses_accepted (f : KvFaults) (now : Z) (name : string)
    (r : Js.value) (kv : Store) :
  accepted r = true →
  post_responses f now name r kv =
    if set_fails f ("responses", now, name) then (internal_error, kv)
    else (Json 200 {| success := true |},
          <[("responses", now, Js.usv name) := stored_response now name r]> kv).
Proof.
  unfold accepted, post_responses, kv_set. intros H.
  rewrite <- negb_andb, H. cbn [negb].
  change (key_usv ("responses", ?t, name)) with ("responses", t, Js.usv name).
  destruct r; try discriminate; cbn [Js.get Js.or OnboardingResponse.timestamp];
    by destruct (set_fails f _).
Qed.

Lemma answer_empty_object (field : string) : answer (Js.Obj []) field = Js.Str "".
Proof. reflexivity. Qed.

Lemma stored_response_array (now : Z) (name : string) (items : list Js.value) :
  stored_response now name (Js.Arr items) = blank_response now name.
Proof. reflexivity. Qed.

(** ** The key invariant *)

Lemma key_encodes_stored (now : Z) (name : string) (r : Js.value) :
  key_encodes ("responses", now, Js.usv name) (stored_response now name r).
Proof. reflexivity. Qed.

Lemma post_responses_keys_encode (f : KvFaults) (now : Z) (name : string)
    (r : Js.value) (kv : Store) :
  keys_encode kv → keys_encode (post_responses f now name r kv).2.
Proof.
  intros Hkv. destruct (accepted r) eqn:Hr.
  - rewrite post_responses_accepted by done.
    destruct (set_fails f _); simpl; [done|].
    apply map_Forall_insert_2; [apply key_encodes_stored | done].
  - by rewrite post_responses_rejected.
Qed.

(** ** DELETE /responses/:name *)

Section delete_loop.
Variables (f : KvFaults) (name : string).

Local Abbreviation settle := (settle f).
Local Abbreviation sweep := (sweep f).

Lemma delete_loop_spec (iter : list (KvKey * OnboardingResponse.t)) :
  ∀ (ops : list (Js.result unit)) (c : Z) (kv : Store),
    delete_loop f name iter ops c kv =
    (ops ++ map settle (filter (named name) iter),
     c + Z.of_nat (length (filter (named name) iter)),
     sweep kv (filter (named name) iter)).
Proof.
  induction iter as [|e iter IH]; intros ops c kv.
  - cbn [delete_loop]. rewrite filter_nil. simpl.
    by rewrite app_nil_r, Z.add_0_r.
  - cbn [delete_loop]. fold (named name e).
    destruct (named name e) eqn:E.
    + rewrite filter_cons_True by (rewrite E; simpl; tauto).
      unfold kv_delete at 1. unfold sweep, settle. cbn [foldl map length].
      unfold kv_delete at 2.
      rewrite Nat2Z.inj_succ, <- Z.add_1_l, Z.add_assoc.
      destruct (delete_fails f e.1); by rewrite IH, <- app_assoc.
    + rewrite filter_cons_False by (rewrite E; simpl; tauto). apply IH.
Qed.

Lemma lookup_sweep (l : list (KvKey * OnboardingResponse.t)) :
  ∀ (kv : Store) (k : KvKey) (r : OnboardingResponse.t),
    sweep kv l !! k = Some r ↔
    kv !! k = Some r ∧ ¬ ∃ e, e ∈ l ∧ e.1 = k ∧ delete_fails f k = false.
Proof.
  induction l as [|e l IH]; intros kv k r.
  - simpl. split; [|tauto]. intros H. split; [done|].
    intros (e & He & _). by apply elem_of_nil in He.
  - cbn [sweep foldl]. fold (sweep (kv_delete f e.1 kv).2 l). rewrite IH.
    unfold kv_delete. destruct (delete_fails f e.1) eqn:F; simpl.
    + split; intros [H1 H2]; (split; [done|]).
      * intros (e' & He' & <- & F'). apply elem_of_cons in He' as [->|He'].
        { congruence. }
        apply H2. by exists e'.
      * intros (e' & He' & <- & F'). apply H2. exists e'.
        split; [by apply elem_of_cons; right | done].
    + split.
      * intros [H1 H2]. apply lookup_delete_Some in H1 as [Hne H1].
        split; [done|].
        intros (e' & He' & <- & F'). apply elem_of_cons in He' as [->|He'].
        { done. }
        apply H2. by exists e'.
      * intros [H1 H2].
        assert (e.1 ≠ k) as Hne.
        { intros <-. apply H2. exists e. split; [apply elem_of_cons; by left|done]. }
        split; [by apply lookup_delete_Some|].
        intros (e' & He' & <- & F'). apply H2. exists e'.
        split; [by apply elem_of_cons; right | done].
Qed.

Lemma promise_all_settle (l : list (KvKey * OnboardingResponse.t)) :
  Js.is_ok (promise_all (map settle l)) =
  forallb (λ e, negb (delete_fails f e.1)) l.
Proof.
  induction l as [|e l IH]; [done|].
  simpl. unfold settle at 1. by destruct (delete_fails f e.1).
Qed.

Lemma sweep_scan (kv : Store) :
  sweep kv (filter (named name) (kv_list "responses" kv)) =
  filter (λ e, removed f name e = false) kv.
Proof.
  apply map_eq. intros k. apply option_eq. intros r.
  rewrite lookup_sweep, map_lookup_filter_Some. unfold removed. simpl.
  split.
  - intros [H1 H2]. split; [done|].
    destruct (String.eqb_spec k.1.1 "responses") as [Hp|Hp]; [|done].
    destruct (named name (k, r)) eqn:Hn; [|done].
    destruct (delete_fails f k) eqn:F; [done|].
    exfalso. apply H2. exists (k, r). split; [|done].
    apply list_elem_of_filter. split; [by rewrite Hn|].
    by apply elem_of_kv_list.
  - intros [H1 H2]. split; [done|].
    intros ([k' r'] & He & <- & F). simpl in *.
    apply list_elem_of_filter in He as [Hn He].
    apply elem_of_kv_list in He as [Hk Hp]. simpl in *.
    assert (r' = r) as -> by congruence.
    rewrite F, Hp in H2. apply Is_true_true in Hn. rewrite Hn in H2.
    by rewrite String.eqb_refl in H2.
Qed.

End delete_loop.

Lemma delete_responses_name_spec (f : KvFaults) (name : string) (kv : Store) :
  name ≠ "" →
  let matching := filter (named name) (kv_list "responses" kv) in
  delete_responses_name f (Some name) kv =
    (if forallb (λ e, negb (delete_fails f e.1)) matching
     then Json 200 {| delete_success := true;
                      deleted := Z.of_nat (length matching);
                      message := delete_message (Z.of_nat (length matching)) name |}
     else internal_error,
     filter (λ e, removed f name e = false) kv).
Proof.
  intros Hname matching. unfold delete_responses_name.
  assert (truthy_opt (Some name) = true) as ->.
  { simpl. unfold Js.truthy_str. by destruct (String.eqb_spec name ""). }
  cbn [negb default]. rewrite delete_loop_spec, sweep_scan, Z.add_0_l.
  subst matching. cbn [app]. rewrite <- promise_all_settle.
  unfold delete_message. by destruct (promise_all _).
Qed.

Lemma delete_responses_name_keys_encode (f : KvFaults) (name : option string)
    (kv : Store) :
  keys_encode kv → keys_encode (delete_responses_name f name kv).2.
Proof.
  intros Hkv. destruct name as [name|]; [|done].
  destruct (decide (name = "")) as [->|Hne]; [done|].
  rewrite delete_responses_name_spec by done. simpl.
  intros k r Hk. apply map_lookup_filter_Some in Hk as [Hk _]. by apply Hkv.
Qed.

Lemma run_op_keys_encode (op : Op) (kv : Store) :
  keys_encode kv → keys_encode (run_op op kv).
Proof.
  destruct op; simpl;
    auto using post_responses_keys_encode, delete_responses_name_keys_encode.
Qed.

Lemma run_ops_keys_encode (ops : list Op) :
  ∀ kv : Store, keys_encode kv → keys_encode (run_ops ops kv).
Proof.
  induction ops as [|op ops IH]; intros kv Hkv; [done|].
  apply IH, run_op_keys_encode, Hkv.
Qed.

(** C7, as amended: in every store reached from the empty one by
    writes and deletes by name, each entry sits under the key
    ("responses", t, n') where t is the timestamp of the record it holds
    and n' is the record's name as the store encodes it, every unpaired
    surrogate replaced by U+FFFD; one more operation of either kind
    keeps it so.  For a record whose name is well formed n' is the name
    itself, and the key is ("responses", t, n) as the claim has it. *)
Theorem keys_encode_reachable (ops : list Op) (op : Op) (k : KvKey)
    (r : OnboardingResponse.t) :
  keys_encode (run_ops ops ∅)
  ∧ keys_encode (run_op op (run_ops ops ∅))
  ∧ (run_ops ops ∅ !! k = Some r →
     Js.well_formed (OnboardingResponse.name r) →
     key_matches k r).
Proof.
  assert (keys_encode (run_ops ops ∅)) as H.
  { apply run_ops_keys_encode, map_Forall_empty. }
  split; [exact H|]. split; [by apply run_op_keys_encode|].
  intros Hk Hwf. pose proof (H k r Hk) as E.
  unfold key_encodes in E. unfold Js.well_formed in Hwf.
  by rewrite Hwf in E.
Qed.

(** The a at 1 of the store holding a, b, b. *)
Lemma keys_encode_reachable_witness :
  store_abb !! ("responses", 1, "a") = Some (blank_response 1 "a")
  ∧ Js.well_formed (OnboardingResponse.name (blank_response 1 "a"))
  ∧ key_matches ("responses", 1, "a") (blank_response 1 "a").
Proof.
  assert (store_abb !! ("responses", 1, "a") = Some (blank_response 1 "a"))
    as H1 by (vm_compute; reflexivity).
  assert (Js.well_formed (OnboardingResponse.name (blank_response 1 "a")))
    as H2 by reflexivity.
  split; [exact H1|]. split; [exact H2|].
  exact (proj2 (proj2 (keys_encode_reachable
                         [Write no_faults 1 "a" (Js.Obj []);
                          Write no_faults 2 "b" (Js.Obj []);
                          Write no_faults 3 "b" (Js.Obj [])]
                         (DeleteByName no_faults None)
                         ("responses", 1, "a") (blank_response 1 "a"))) H1 H2).
Defined.

(** C7, as stated, fails.  One write at 1 for the name that is the
    unpaired surrogate U+D800: the store holds the record, its name as
    given, under the key whose third part is U+FFFD, which is not the
    name. *)
Lemma write_key_drifts_from_name :
  store_lone !! ("responses", 1, Js.replacement) =
    Some (blank_response 1 lone_surrogate)
  ∧ OnboardingResponse.name (blank_response 1 lone_surrogate) ≠ Js.replacement
  ∧ ¬ key_matches ("responses", 1, Js.replacement)
        (blank_response 1 lone_surrogate)
  ∧ ¬ keys_match store_lone.
Proof.
  assert (store_lone !! ("responses", 1, Js.replacement) =
          Some (blank_response 1 lone_surrogate)) as H
    by (vm_compute; reflexivity).
  split; [exact H|]. split; [discriminate|]. split; [intros [=]|].
  intros Hall. by specialize (Hall _ _ H) as [=].
Qed.

(** C8: a write whose answers are absent, null or any other value that
    is not structured is refused with 400 and leaves the store as it
    was; a write with the empty answers object, the store accepting it,
    replies 200 and puts one record under its key (the key as the store
    encodes it), both answer fields being the empty string, every other
    key keeping what it had. *)
Theorem write_validates_answers (f : KvFaults) (now : Z) (name : string)
    (answers : Js.value) (kv : Store) :
  let k := ("responses", now, name) in
  let stored := ("responses", now, Js.usv name) in
  (structured answers = false →
     post_responses f now name answers kv =
       (Error 400 "Invalid response format", kv))
  ∧ structured Js.Undefined = false
  ∧ structured Js.Null = false
  ∧ (set_fails f k = false →
       let kv' := (post_responses f now name (Js.Obj []) kv).2 in
       (post_responses f now name (Js.Obj []) kv).1 = Json 200 {| success := true |}
       ∧ kv' !! stored = Some (blank_response now name)
       ∧ delete stored kv' = delete stored kv
       ∧ size kv' = S (size (delete stored kv))).
Proof.
  intros k stored. split; [|split; [done|split; [done|]]].
  - intros H. apply post_responses_rejected. by rewrite accepted_structured.
  - intros Hf. rewrite post_responses_accepted by done.
    fold k stored. rewrite Hf. cbn [fst snd].
    change (stored_response now name (Js.Obj [])) with (blank_response now name).
    split; [done|]. split; [apply lookup_insert_eq|].
    split; [apply delete_insert_eq|].
    rewrite <- insert_delete_eq.
    apply map_size_insert_None, lookup_delete_eq.
Qed.

(** Both cases on the empty store: undefined answers, then the empty object. *)
Lemma write_validates_answers_witness :
  structured Js.Undefined = false
  ∧ set_fails no_faults ("responses", 7, "ann") = false
  ∧ post_responses no_faults 7 "ann" Js.Undefined ∅ =
      (Error 400 "Invalid response format", ∅)
  ∧ (post_responses no_faults 7 "ann" (Js.Obj []) ∅).2 !! ("responses", 7, "ann") =
      Some (blank_response 7 "ann").
Proof.
  pose proof (write_validates_answers no_faults 7 "ann" Js.Undefined ∅)
    as (Hbad & _ & _ & Hok).
  split; [reflexivity|]. split; [reflexivity|].
  split; [apply Hbad; reflexivity|].
  apply Hok. reflexivity.
Defined.

(** C10: the validation of a write accepts exactly the values that are
    truthy and of object type.  An array is one: the write goes through
    and stores a record with both answer fields the empty string.  The
    falsy values undefined, null, 0 and "", and every boolean, number
    and string, are refused with 400 and nothing is stored. *)
Theorem write_accepts_truthy_objects (f : KvFaults) (now : Z) (name : string)
    (responses : Js.value) (items : list Js.value) (kv : Store)
    (b : bool) (n : Js.num) (s : string) :
  let k := ("responses", now, name) in
  let stored := ("responses", now, Js.usv name) in
  accepted responses =
    Js.truthy responses && String.eqb (Js.typeof responses) "object"
  ∧ post_responses f now name responses kv =
      (if accepted responses
       then if set_fails f k then (internal_error, kv)
            else (Json 200 {| success := true |},
                  <[stored := stored_response now name responses]> kv)
       else (Error 400 "Invalid response format", kv))
  ∧ accepted (Js.Arr items) = true
  ∧ stored_response now name (Js.Arr items) = blank_response now name
  ∧ accepted Js.Undefined = false
  ∧ accepted Js.Null = false
  ∧ accepted (Js.Num (Js.Int 0)) = false
  ∧ accepted (Js.Str "") = false
  ∧ accepted (Js.Bool b) = false
  ∧ accepted (Js.Num n) = false
  ∧ accepted (Js.Str s) = false.
Proof.
  intros k. split; [reflexivity|]. split.
  - destruct (accepted responses) eqn:H.
    + by apply post_responses_accepted.
    + by apply post_responses_rejected.
  - rewrite !accepted_structured. repeat split.
Qed.

(** C2, as amended: for every store state and every non-empty name,
    delete by name reports a [deleted] count equal to the number of
    records whose name matched at scan time when every delete it
    dispatched succeeds.  When one of them fails it reports no count:
    the reply is 500 "Internal server error".  Either way the store
    loses exactly the matched records whose delete succeeded. *)
Theorem delete_reports_scan_count (f : KvFaults) (name : string) (kv : Store) :
  name ≠ "" →
  let matching := filter (named name) (kv_list "responses" kv) in
  let all_deleted := forallb (λ e, negb (delete_fails f e.1)) matching in
  let reply := (delete_responses_name f (Some name) kv).1 in
  let kv' := (delete_responses_name f (Some name) kv).2 in
  reply =
    (if all_deleted
     then Json 200 {| delete_success := true;
                      deleted := Z.of_nat (length matching);
                      message := delete_message (Z.of_nat (length matching)) name |}
     else Error 500 "Internal server error")
  ∧ deleted <$> payload reply =
      (if all_deleted then Some (Z.of_nat (length matching)) else None)
  ∧ kv' = filter (λ e, removed f name e = false) kv.
Proof.
  intros Hname matching all_deleted reply kv'.
  subst reply kv'. rewrite delete_responses_name_spec by done.
  fold matching all_deleted. cbn [fst snd].
  split; [done|]. split; [|done]. by destruct all_deleted.
Qed.

(** Deleting a from the store holding a, b, a with a sound backend. *)
Lemma delete_reports_scan_count_witness :
  "a" ≠ ""
  ∧ (delete_responses_name no_faults (Some "a") store_aba).1 =
      Json 200 {| delete_success := true; deleted := 2;
                  message := "Deleted 2 responses for a" |}.
Proof.
  split; [discriminate|].
  pose proof (delete_reports_scan_count no_faults "a" store_aba
                ltac:(discriminate)) as (H & _).
  rewrite H. vm_compute. reflexivity.
Defined.

(** C2, as stated, fails.  On the store holding a at 1, b at 2 and a at
    3, with the backend rejecting the delete of the a at 3: two records
    match at scan time, and the reply is 500 with no count, the a at 1
    being gone and the a at 3 still stored. *)
Lemma delete_failure_reports_no_count :
  length (filter (named "a") (kv_list "responses" store_aba)) = 2%nat
  ∧ (delete_responses_name (delete_rejected ("responses", 3, "a"))
       (Some "a") store_aba).1 = Error 500 "Internal server error"
  ∧ deleted <$> payload
      (delete_responses_name (delete_rejected ("responses", 3, "a"))
         (Some "a") store_aba).1 = None
  ∧ (delete_responses_name (delete_rejected ("responses", 3, "a"))
       (Some "a") store_aba).2 !! ("responses", 1, "a") = None
  ∧ (delete_responses_name (delete_rejected ("responses", 3, "a"))
       (Some "a") store_aba).2 !! ("responses", 3, "a") =
      Some (blank_response 3 "a").
Proof. vm_compute. repeat split. Qed.

(** ** Scans of a store whose keys match *)

Lemma kv_list_all (kv : Store) :
  keys_encode kv → kv_list "responses" kv ≡ₚ map_to_list kv.
Proof.
  intros Hkv. rewrite kv_list_perm.
  assert (Forall (λ e : KvKey * OnboardingResponse.t, e.1.1.1 = "responses")
            (map_to_list kv)) as H.
  { apply Forall_forall. intros [k r] He%elem_of_map_to_list.
    by rewrite (Hkv k r He). }
  induction H as [|e l He Hl IH]; [done|].
  rewrite filter_cons_True by done. by rewrite IH.
Qed.

Lemma kv_list_keys_encode (kv : Store) :
  keys_encode kv →
  Forall (λ e, key_encodes e.1 e.2) (kv_list "responses" kv).
Proof.
  intros Hkv. apply Forall_forall. intros [k r] [He _]%elem_of_kv_list.
  by apply Hkv.
Qed.

Lemma sorted_timestamps (l : list (KvKey * OnboardingResponse.t)) :
  Forall (λ e, key_encodes e.1 e.2) l →
  Sorted entry_le l →
  Sorted Z.le (map (λ e, OnboardingResponse.timestamp e.2) l).
Proof.
  intros Hk Hs. induction Hs as [|e l Hs IH Hd]; [constructor|].
  apply Forall_cons in Hk as [He Hl]. simpl.
  constructor; [by apply IH|].
  destruct Hd as [|e' l Hle]; simpl; constructor.
  apply Forall_cons in Hl as [He' _].
  unfold entry_le in Hle. rewrite He, He' in Hle.
  by apply key_le_timestamp in Hle.
Qed.

Lemma filter_selected_all (l : list (KvKey * OnboardingResponse.t)) :
  filter (selected 0 None) l = l.
Proof.
  induction l as [|e l IH]; [done|].
  rewrite filter_cons_True by done. by rewrite IH.
Qed.

(** C6: for every store reached from the empty one by writes (and
    deletes by name), [list] with no filter and a limit of at least the
    number of stored records returns every record, in non-decreasing
    timestamp order. *)
Theorem list_all_in_timestamp_order (ops : list Op) (L : Z) :
  let kv := run_ops ops ∅ in
  Z.of_nat (size kv) ≤ L →
  let rs := (list_scan (integer_params L 0 0 None) kv).1 in
  rs ≡ₚ map to_listed (map_to_list kv)
  ∧ Sorted Z.le (map (λ r, OnboardingResponse.timestamp (listed r)) rs).
Proof.
  intros kv HL rs.
  assert (keys_encode kv) as Hkv.
  { apply run_ops_keys_encode, map_Forall_empty. }
  assert (length (kv_list "responses" kv) = size kv) as Hlen.
  { rewrite <- length_map_to_list. apply Permutation_length, kv_list_all, Hkv. }
  assert (rs = map to_listed (kv_list "responses" kv)) as ->.
  { subst rs. unfold list_scan. rewrite list_loop_spec. cbn [fst app].
    rewrite filter_selected_all.
    change (Z.to_nat (0 - 0)) with 0%nat.
    rewrite drop_0, Z.sub_0_r, take_ge by lia. done. }
  split.
  - by rewrite (kv_list_all kv Hkv).
  - rewrite map_map. simpl.
    apply sorted_timestamps; [by apply kv_list_keys_encode | apply kv_list_sorted].
Qed.

(** Listing the store holding a, b, b with the limit 100. *)
Lemma list_all_in_timestamp_order_witness :
  Z.of_nat (size store_abb) ≤ 100
  ∧ Sorted Z.le
      (map (λ r, OnboardingResponse.timestamp (listed r))
         (list_scan (integer_params 100 0 0 None) store_abb).1).
Proof.
  assert (Z.of_nat (size store_abb) ≤ 100) as H by (vm_compute; discriminate).
  split; [exact H|].
  exact (proj2 (list_all_in_timestamp_order
                  [Write no_faults 1 "a" (Js.Obj []);
                   Write no_faults 2 "b" (Js.Obj []);
                   Write no_faults 3 "b" (Js.Obj [])] 100 H)).
Defined.

(** ** GET /responses/stats *)

Lemma fold_min_int (l : list (KvKey * OnboardingResponse.t)) :
  ∀ x : Z,
    fold_left (λ a e, Js.min a (Js.Int (OnboardingResponse.timestamp e.2))) l (Js.Int x)
    = Js.Int (from_option (Z.min x) x (min_timestamp l)).
Proof.
  induction l as [|e l IH]; intros x; [done|].
  cbn [fold_left Js.min]. rewrite IH. cbn [min_timestamp foldr from_option].
  fold (min_timestamp l). destruct (min_timestamp l); simpl; [|done].
  by rewrite Z.min_assoc.
Qed.

Lemma fold_min_inf (l : list (KvKey * OnboardingResponse.t)) :
  fold_left (λ a e, Js.min a (Js.Int (OnboardingResponse.timestamp e.2))) l Js.PosInf
  = from_option Js.Int Js.PosInf (min_timestamp l).
Proof.
  destruct l as [|e l]; [done|].
  cbn [fold_left Js.min]. by rewrite fold_min_int.
Qed.

Lemma fold_max_int (l : list (KvKey * OnboardingResponse.t)) :
  ∀ x : Z,
    fold_left (λ a e, Js.max a (Js.Int (OnboardingResponse.timestamp e.2))) l (Js.Int x)
    = Js.Int (from_option (Z.max x) x (max_timestamp l)).
Proof.
  induction l as [|e l IH]; intros x; [done|].
  cbn [fold_left Js.max]. rewrite IH. cbn [max_timestamp foldr from_option].
  fold (max_timestamp l). destruct (max_timestamp l); simpl; [|done].
  by rewrite Z.max_assoc.
Qed.

Lemma max_timestamp_pos (l : list (KvKey * OnboardingResponse.t)) (m : Z) :
  Forall (λ e, 0 < OnboardingResponse.timestamp e.2) l →
  max_timestamp l = Some m → 0 < m.
Proof.
  intros H. revert m. induction H as [|e l He Hl IH]; intros m; [done|].
  cbn [max_timestamp foldr]. fold (max_timestamp l).
  intros [= <-]. destruct (max_timestamp l) as [m'|]; simpl; [|done].
  specialize (IH m' eq_refl). lia.
Qed.

Lemma stats_loop_spec (l : list (KvKey * OnboardingResponse.t)) :
  ∀ s : stats.t,
    fold_left stats_step l s =
    {| stats.total := stats.total s + Z.of_nat (length l);
       stats.uniqueNames :=
         list_to_set (map (λ e, OnboardingResponse.name e.2) l) ∪ stats.uniqueNames s;
       stats.first :=
         fold_left (λ a e, Js.min a (Js.Int (OnboardingResponse.timestamp e.2)))
           l (stats.first s);
       stats.last :=
         fold_left (λ a e, Js.max a (Js.Int (OnboardingResponse.timestamp e.2)))
           l (stats.last s) |}.
Proof.
  induction l as [|e l IH]; intros s.
  - destruct s. simpl. by rewrite Z.add_0_r, union_empty_l_L.
  - cbn [fold_left]. rewrite IH. unfold stats_step at 1 2.
    cbn [stats.total stats.uniqueNames stats.first stats.last length map
         list_to_set].
    f_equal; [lia|].
    by rewrite (assoc_L (∪)), (comm_L (∪) (list_to_set _)).
Qed.

Lemma size_names (l : list string) :
  size (list_to_set l : gset string) = length (remove_dups l).
Proof.
  rewrite <- (size_list_to_set (C := gset string)) by apply NoDup_remove_dups.
  f_equal. apply set_eq. intros x.
  by rewrite !elem_of_list_to_set, elem_of_remove_dups.
Qed.

Lemma get_responses_stats_spec (kv : Store) :
  let entries := kv_list "responses" kv in
  Forall (λ e, 0 < OnboardingResponse.timestamp e.2) entries →
  get_responses_stats kv =
    Json 200
      {| total := Z.of_nat (length entries);
         uniqueParticipants := Z.of_nat (distinct_names entries);
         timeRange :=
           {| first := absent_or (min_timestamp entries);
              last := absent_or (max_timestamp entries);
              durationMs := duration (min_timestamp entries) (max_timestamp entries) |} |}.
Proof.
  intros entries Hpos. unfold get_responses_stats, stats_loop.
  fold entries. rewrite stats_loop_spec.
  cbn [stats.total stats.uniqueNames stats.first stats.last stats_init].
  rewrite fold_min_inf, fold_max_int, union_empty_r_L, size_names, Z.add_0_l.
  fold (distinct_names entries).
  pose proof (λ m, max_timestamp_pos entries m Hpos) as Hmax.
  assert (min_timestamp entries = None ↔ max_timestamp entries = None) as Hnone.
  { by destruct entries. }
  destruct (max_timestamp entries) as [M|] eqn:EM;
    destruct (min_timestamp entries) as [m|] eqn:Em.
  - specialize (Hmax M eq_refl). cbn [from_option].
    rewrite Z.max_r by lia. cbn [Js.strict_eq_num Js.sub absent_or duration].
    destruct (Z.eqb_spec M 0); [lia|done].
  - by destruct Hnone as [H _]; specialize (H eq_refl).
  - by destruct Hnone as [_ H]; specialize (H eq_refl).
  - done.
Qed.

(** C3: the statistics visit every record under the prefix: [total]
    is the number of records, [uniqueParticipants] the number of
    distinct names, [timeRange.first] and [.last] the smallest and the
    largest timestamp (timestamps being positive, as [Date.now()]
    gives them).  On the empty store the totals are 0 and both ends of
    the range are null; after writes for the names a, b, a the
    statistics count 3 records and 2 participants. *)
Theorem stats_aggregates (ops : list Op) :
  let kv := run_ops ops ∅ in
  let entries := kv_list "responses" kv in
  Forall (λ e, 0 < OnboardingResponse.timestamp e.2) entries →
  length entries = size kv
  ∧ get_responses_stats kv =
      Json 200
        {| total := Z.of_nat (size kv);
           uniqueParticipants := Z.of_nat (distinct_names entries);
           timeRange :=
             {| first := absent_or (min_timestamp entries);
                last := absent_or (max_timestamp entries);
                durationMs :=
                  duration (min_timestamp entries) (max_timestamp entries) |} |}
  ∧ get_responses_stats ∅ =
      Json 200
        {| total := 0;
           uniqueParticipants := 0;
           timeRange :=
             {| first := Js.Null; last := Js.Null; durationMs := Js.NegInf |} |}
  ∧ get_responses_stats store_aba =
      Json 200
        {| total := 3;
           uniqueParticipants := 2;
           timeRange :=
             {| first := Js.Num (Js.Int 1);
                last := Js.Num (Js.Int 3);
                durationMs := Js.Int 2 |} |}.
Proof.
  intros kv entries Hpos.
  assert (length entries = size kv) as Hlen.
  { rewrite <- length_map_to_list.
    apply Permutation_length, kv_list_all, run_ops_keys_encode, map_Forall_empty. }
  split; [exact Hlen|]. split.
  - rewrite get_responses_stats_spec by exact Hpos. fold entries. by rewrite Hlen.
  - split; by vm_compute.
Qed.

(** The store holding a, b, b: its timestamps 1, 2, 3 are positive. *)
Lemma stats_aggregates_witness :
  Forall (λ e, 0 < OnboardingResponse.timestamp e.2) (kv_list "responses" store_abb)
  ∧ length (kv_list "responses" store_abb) = size store_abb.
Proof.
  assert (Forall (λ e, 0 < OnboardingResponse.timestamp e.2)
            (kv_list "responses" store_abb)) as H.
  { vm_compute. repeat constructor. }
  split; [exact H|].
  exact (proj1 (stats_aggregates
                  [Write no_faults 1 "a" (Js.Obj []);
                   Write no_faults 2 "b" (Js.Obj []);
                   Write no_faults 3 "b" (Js.Obj [])] H)).
Defined.

(** ** POST /chat *)

Lemma relay_loop_readable (cs : list Chunk) :
  ∀ q : list (list Byte.byte),
    relay_loop cs {| state := Readable; enqueued := q |} =
    (Js.Ok tt, {| state := Readable; enqueued := q ++ map frame (texts cs) |}).
Proof.
  induction cs as [|c cs IH]; intros q.
  - simpl. by rewrite app_nil_r.
  - cbn [relay_loop texts].
    destruct (chunk_content c) as [s|]; cbn [truthy_opt default].
    + destruct (Js.truthy_str s).
      * unfold controller_enqueue. cbn [state enqueued].
        rewrite IH, <- app_assoc. reflexivity.
      * apply IH.
    + apply IH.
Qed.

Lemma start_natural_end (cs : list Chunk) :
  start {| chunks := cs; ending := NaturalEnd |} new_stream =
    (Js.Ok tt,
     {| state := Closed; enqueued := map frame (texts cs) ++ [frame "[DONE]"] |}).
Proof.
  unfold start, new_stream. cbn [chunks ending].
  by rewrite relay_loop_readable.
Qed.

Lemma start_fails (cs : list Chunk) :
  start {| chunks := cs; ending := Fails |} new_stream =
    (Js.Throw Js.TypeError,
     {| state := Errored; enqueued := map frame (texts cs) |}).
Proof.
  unfold start, new_stream. cbn [chunks ending].
  by rewrite relay_loop_readable.
Qed.

Lemma list_ascii_of_append (a b : string) :
  String.list_ascii_of_string (a +:+ b) =
  String.list_ascii_of_string a ++ String.list_ascii_of_string b.
Proof. induction a as [|c a IH]; simpl; [done|]. by rewrite IH. Qed.

Lemma append_inj_r (a b s : string) : a +:+ s = b +:+ s → a = b.
Proof.
  intros H%(f_equal String.list_ascii_of_string).
  rewrite !list_ascii_of_append in H. apply app_inv_tail in H.
  rewrite <- (String.string_of_list_ascii_of_string a),
          <- (String.string_of_list_ascii_of_string b).
  by rewrite H.
Qed.

Lemma data_frame_inj (a b : string) : data_frame a = data_frame b → a = b.
Proof.
  unfold data_frame. simpl. intros H.
  injection H as H. change ("" +:+ ?x) with x in H.
  by apply append_inj_r in H.
Qed.

Lemma plain_app (a b : string) : plain (a +:+ b) = plain a && plain b.
Proof.
  induction a as [|c a IH]; [done|]. simpl.
  by rewrite IH, andb_assoc.
Qed.

Lemma encode_eq (a b : string) : encode a = encode b ↔ Js.usv a = Js.usv b.
Proof.
  unfold encode. split; [|by intros ->].
  intros H%(f_equal String.string_of_list_byte).
  by rewrite !String.string_of_list_byte_of_string in H.
Qed.

(** The frame of a plain text is the frame of no other text. *)
Lemma frame_plain_inj (a t : string) :
  plain a = true → frame a = frame t → a = t.
Proof.
  unfold frame. intros Ha H%encode_eq.
  assert (plain (data_frame a) = true) as Hp.
  { unfold data_frame. by rewrite !plain_app, Ha. }
  rewrite (usv_plain _ Hp) in H. symmetry in H.
  apply usv_plain_inv in H; [|done]. symmetry. by apply data_frame_inj.
Qed.

(** C4: for every finite sequence of upstream chunks that ends by
    natural closure the relay emits, in upstream order, one frame
    [data: <text>\n\n] for each chunk carrying non-empty text, then the
    one frame [data: [DONE]\n\n], and closes the stream; the fragments
    "Hel", "lo" give [data: Hel\n\n], [data: lo\n\n], [data: [DONE]\n\n]. *)
Theorem relay_frames_then_done (modelName : string)
    (create : CreateCall → Js.result UpstreamStream)
    (body messages : Js.value) (cs : list Chunk) :
  let call := {| model := modelName; messages := messages; stream := true |} in
  Js.get body "messages" = Js.Ok messages →
  Js.isArray messages = true →
  create call = Js.Ok {| chunks := cs; ending := NaturalEnd |} →
  post_chat modelName create body =
    (ChatStream (Js.Ok tt)
       {| state := Closed;
          enqueued := map frame (texts cs) ++ [frame "[DONE]"] |},
     [call])
  ∧ start {| chunks := cs; ending := NaturalEnd |} new_stream =
      (Js.Ok tt,
       {| state := Closed;
          enqueued := map frame (texts cs) ++ [frame "[DONE]"] |})
  ∧ start {| chunks := hello_chunks; ending := NaturalEnd |} new_stream =
      (Js.Ok tt,
       {| state := Closed;
          enqueued := [encode ("data: Hel" +:+ LF +:+ LF);
                       encode ("data: lo" +:+ LF +:+ LF);
                       encode ("data: [DONE]" +:+ LF +:+ LF)] |}).
Proof.
  intros call Hbody Harr Hcreate. split; [|split].
  - unfold post_chat. rewrite Hbody.
    destruct messages; try discriminate. cbn [Js.truthy Js.isArray negb orb].
    fold call. by rewrite Hcreate, start_natural_end.
  - apply start_natural_end.
  - reflexivity.
Qed.

(** One well-formed turn, answered upstream by the fragments Hel and lo. *)
Lemma relay_frames_then_done_witness :
  Js.get (body_of one_turn) "messages" = Js.Ok one_turn
  ∧ Js.isArray one_turn = true
  ∧ post_chat "llama" hello_upstream (body_of one_turn) =
      (ChatStream (Js.Ok tt)
         {| state := Closed;
            enqueued := [frame "Hel"; frame "lo"; frame "[DONE]"] |},
       [{| model := "llama"; messages := one_turn; stream := true |}]).
Proof.
  split; [reflexivity|]. split; [reflexivity|].
  exact (proj1 (relay_frames_then_done "llama" hello_upstream
                  (body_of one_turn) one_turn hello_chunks
                  eq_refl eq_refl eq_refl)).
Defined.

(** C5: when the upstream throws after it has yielded some chunks, the
    frames emitted are exactly those of the non-empty fragments yielded
    before the error, nothing is emitted after it, the done frame is
    not among them unless a fragment itself reads "[DONE]", and the
    stream ends errored, not closed. *)
Theorem relay_errors_without_done (cs : list Chunk) :
  let out := start {| chunks := cs; ending := Fails |} new_stream in
  enqueued out.2 = map frame (texts cs)
  ∧ state out.2 = Errored
  ∧ out.1 = Js.Throw Js.TypeError
  ∧ ("[DONE]" ∉ texts cs → frame "[DONE]" ∉ enqueued out.2).
Proof.
  intros out. subst out. rewrite start_fails. cbn [fst snd enqueued state].
  repeat split. intros Hno Hin.
  apply list_elem_of_fmap in Hin as (t & Ht & Hin).
  apply frame_plain_inj in Ht as <-; [by apply Hno | reflexivity].
Qed.

(** The fragments Hel and lo, then the upstream throws. *)
Lemma relay_errors_without_done_witness :
  ("[DONE]" ∉ texts hello_chunks)
  ∧ enqueued (start {| chunks := hello_chunks; ending := Fails |} new_stream).2 =
      [frame "Hel"; frame "lo"]
  ∧ frame "[DONE]" ∉
      enqueued (start {| chunks := hello_chunks; ending := Fails |} new_stream).2.
Proof.
  assert ("[DONE]" ∉ texts hello_chunks) as Hno.
  { intros H. repeat (apply elem_of_cons in H as [H|H]; [discriminate|]).
    by apply elem_of_nil in H. }
  pose proof (relay_errors_without_done hello_chunks) as (Hq & _ & _ & Hdone).
  split; [exact Hno|]. split; [exact Hq|]. exact (Hdone Hno).
Defined.

(** C9, as amended: for every request body that is not null and whose
    [messages] field is missing or is not an array, the relay replies
    400 "Invalid messages format" and calls the upstream zero times.
    (An array goes upstream whatever its elements are.) *)
Theorem chat_rejects_non_array (modelName : string)
    (create : CreateCall → Js.result UpstreamStream)
    (body messages : Js.value) :
  Js.get body "messages" = Js.Ok messages →
  Js.isArray messages = false →
  post_chat modelName create body =
    (ChatError 400 "Invalid messages format", []).
Proof.
  intros Hbody Harr. unfold post_chat. rewrite Hbody, Harr.
  by rewrite orb_true_r.
Qed.

(** A body with a prompt and no messages. *)
Lemma chat_rejects_non_array_witness :
  Js.get (Js.Obj [("prompt", Js.Str "hi")]) "messages" = Js.Ok Js.Undefined
  ∧ Js.isArray Js.Undefined = false
  ∧ post_chat "llama" silent_upstream (Js.Obj [("prompt", Js.Str "hi")]) =
      (ChatError 400 "Invalid messages format", []).
Proof.
  split; [reflexivity|]. split; [reflexivity|].
  exact (chat_rejects_non_array "llama" silent_upstream
           (Js.Obj [("prompt", Js.Str "hi")]) Js.Undefined eq_refl eq_refl).
Defined.

(** C9, as stated, fails.  The body {"messages": [5]} carries a
    sequence that is not made of role/content turns; the relay does not
    reply 400 but calls the upstream once and streams its answer.  (And
    the body null is answered 500, not 400.) *)
Lemma chat_forwards_malformed_turns :
  Js.get (body_of turnless) "messages" = Js.Ok turnless
  ∧ is_turn_sequence turnless = false
  ∧ post_chat "llama" silent_upstream (body_of turnless) =
      (ChatStream (Js.Ok tt) {| state := Closed; enqueued := [frame "[DONE]"] |},
       [{| model := "llama"; messages := turnless; stream := true |}])
  ∧ post_chat "llama" silent_upstream Js.Null =
      (ChatError 500 "Internal server error", []).
Proof. repeat split. Qed.

(** * Further properties *)

(** ** Listings *)

Lemma list_scan_responses (kv : Store) (L O T : Z) (nm : option string) :
  (list_scan (integer_params L O T nm) kv).1 =
  map to_listed (page L O (filter (selected T nm) (kv_list "responses" kv))).
Proof.
  unfold list_scan. rewrite list_loop_spec. cbn [fst app].
  by rewrite !Z.sub_0_r.
Qed.

(** X1: consecutive pages tile the filtered stream: on one store, the
    page of [L1] records at offset [O] followed by the page of [L2]
    records at offset [O + L1] is the page of [L1 + L2] records at
    offset [O]; no record is lost or repeated at the seam. *)
Theorem list_pages_tile (kv : Store) (L1 L2 O T : Z) (nm : option string) :
  0 ≤ L1 → 0 ≤ L2 → 0 ≤ O →
  (list_scan (integer_params L1 O T nm) kv).1
  ++ (list_scan (integer_params L2 (O + L1) T nm) kv).1
  = (list_scan (integer_params (L1 + L2) O T nm) kv).1.
Proof.
  intros H1 H2 HO. rewrite !list_scan_responses. unfold page.
  rewrite <- map_app. f_equal.
  rewrite !Z2Nat.inj_add by done.
  rewrite <- drop_drop. apply take_take_drop.
Qed.

(** The first and the second page of one record each, on the store
    holding a, b, b. *)
Lemma list_pages_tile_witness :
  0 ≤ 1 ∧ 0 ≤ 0
  ∧ map key ((list_scan (integer_params 1 0 0 None) store_abb).1
             ++ (list_scan (integer_params 1 (0 + 1) 0 None) store_abb).1)
    = [("responses", 1, "a"); ("responses", 2, "b")].
Proof.
  split; [lia|]. split; [lia|].
  rewrite (list_pages_tile store_abb 1 1 0 0 None) by lia.
  vm_compute. reflexivity.
Defined.

Lemma kv_list_NoDup_keys {V} (p : string) (kv : gmap KvKey V) :
  NoDup (kv_list p kv).*1.
Proof.
  rewrite kv_list_perm.
  apply (sublist_NoDup _ (map_to_list kv).*1);
    [apply NoDup_fst_map_to_list | apply fmap_sublist, sublist_filter].
Qed.

Lemma page_sublist {A} (L O : Z) (l : list A) : page L O l `sublist_of` l.
Proof.
  unfold page. etrans; [apply sublist_take | apply sublist_drop].
Qed.

Lemma list_scan_sublist (kv : Store) (L O T : Z) (nm : option string) :
  (list_scan (integer_params L O T nm) kv).1
  `sublist_of` map to_listed (kv_list "responses" kv).
Proof.
  rewrite list_scan_responses. apply fmap_sublist.
  etrans; [apply page_sublist | apply sublist_filter].
Qed.

Lemma sublist_Sorted_le (l1 l2 : list Z) :
  l1 `sublist_of` l2 → Sorted Z.le l2 → Sorted Z.le l1.
Proof.
  intros Hsub Hs. apply StronglySorted_Sorted.
  apply Sorted_StronglySorted in Hs; [|intros x y z; apply Z.le_trans].
  induction Hsub as [|x l1 l2 Hsub IH|x l1 l2 Hsub IH].
  - constructor.
  - apply StronglySorted_inv in Hs as [Hs Hx]. constructor; [by apply IH|].
    eapply Forall_forall. intros y Hy. eapply Forall_forall in Hx; [exact Hx|].
    by eapply elem_of_sublist.
  - apply StronglySorted_inv in Hs as [Hs _]. by apply IH.
Qed.

(** X2: for every store reached by writes and deletes, and every
    integer filter, the records a listing returns come in non-decreasing
    timestamp order and no key is returned twice. *)
Theorem list_sorted_under_any_filter (ops : list Op) (L O T : Z)
    (nm : option string) :
  Sorted Z.le
    (listed_timestamps (list_scan (integer_params L O T nm) (run_ops ops ∅)).1)
  ∧ NoDup (listed_keys (list_scan (integer_params L O T nm) (run_ops ops ∅)).1).
Proof.
  set (kv := run_ops ops ∅).
  assert (keys_encode kv) as Hkv by apply run_ops_keys_encode, map_Forall_empty.
  pose proof (list_scan_sublist kv L O T nm) as Hsub.
  split.
  - eapply sublist_Sorted_le.
    + unfold listed_timestamps. apply fmap_sublist, Hsub.
    + rewrite map_map. simpl.
      apply sorted_timestamps; [by apply kv_list_keys_encode | apply kv_list_sorted].
  - apply (sublist_NoDup _ (map key (map to_listed (kv_list "responses" kv)))).
    + rewrite map_map. simpl. apply (kv_list_NoDup_keys "responses" kv).
    + unfold listed_keys. apply fmap_sublist, Hsub.
Qed.

(** ** Parameters that do not parse *)

Section nan_params.
Variables (nm : option string).

Lemma list_loop_nan_since (l o : Js.num) (iter : list (KvKey * OnboardingResponse.t)) :
  ∀ acc s i n,
    list_loop {| params.limit := l; params.offset := o;
                 params.since := Js.NaN; params.name := nm |} iter acc s i n =
    list_loop {| params.limit := l; params.offset := o;
                 params.since := Js.Int 0; params.name := nm |} iter acc s i n.
Proof.
  induction iter as [|e iter IH]; intros acc s i n; [done|].
  cbn [list_loop params.since params.name params.offset params.limit
       Js.truthy_num Z.eqb negb andb].
  by rewrite !IH.
Qed.

Lemma list_loop_nan_offset (l t : Js.num) (iter : list (KvKey * OnboardingResponse.t)) :
  ∀ acc i n,
    list_loop {| params.limit := l; params.offset := Js.NaN;
                 params.since := t; params.name := nm |} iter acc 0 i n =
    list_loop {| params.limit := l; params.offset := Js.Int 0;
                 params.since := t; params.name := nm |} iter acc 0 i n.
Proof.
  induction iter as [|e iter IH]; intros acc i n; [done|].
  cbn [list_loop params.since params.name params.offset params.limit Js.lt].
  change (0 <? 0) with false. cbv iota.
  by rewrite !IH.
Qed.

Lemma list_loop_nan_limit (O T : Z) (iter : list (KvKey * OnboardingResponse.t)) :
  ∀ acc s i n,
    list_loop {| params.limit := Js.NaN; params.offset := Js.Int O;
                 params.since := Js.Int T; params.name := nm |} iter acc s i n =
    (acc ++ map to_listed
              (drop (Z.to_nat (O - s)) (filter (selected T nm) iter)),
     (n + length iter)%nat).
Proof.
  induction iter as [|e iter IH]; intros acc s i n.
  - cbn [list_loop]. rewrite filter_nil, drop_nil. simpl.
    by rewrite app_nil_r, Nat.add_0_r.
  - cbn [list_loop length].
    pose proof (guards_selected 0 O T nm e) as G.
    cbn [integer_params params.since params.name] in G.
    cbn [params.since params.name params.offset params.limit].
    destruct (Js.truthy_num (Js.Int T)
              && Js.lt (Js.Int (OnboardingResponse.timestamp e.2)) (Js.Int T)) eqn:G1.
    { simpl in G. symmetry in G. apply negb_true_iff in G.
      rewrite IH, filter_cons_False by (rewrite G; simpl; tauto).
      f_equal. lia. }
    destruct (truthy_opt nm
              && strict_ne_opt (OnboardingResponse.name e.2) nm) eqn:G2.
    { simpl in G. symmetry in G. apply negb_true_iff in G.
      rewrite IH, filter_cons_False by (rewrite G; simpl; tauto).
      f_equal. lia. }
    simpl in G. symmetry in G. apply negb_false_iff in G.
    rewrite filter_cons_True by (rewrite G; simpl; tauto).
    cbn [Js.lt Js.ge].
    destruct (Z.ltb_spec s O) as [Hs|Hs].
    { rewrite IH.
      replace (Z.to_nat (O - s)) with (S (Z.to_nat (O - (s + 1)))) by lia.
      cbn [drop]. f_equal. lia. }
    replace (Z.to_nat (O - s)) with 0%nat by lia. cbn [drop].
    rewrite IH.
    replace (Z.to_nat (O - s)) with 0%nat by lia. cbn [drop map].
    rewrite <- app_assoc. simpl. f_equal. lia.
Qed.

End nan_params.

(** X3: parameters that do not parse.  A [since] or an [offset] that
    [parseInt] turns into NaN acts as 0.  A NaN [limit] is no limit:
    the loop never breaks, reads the whole store, and returns every
    entry that passes the filters past the offset. *)
Theorem list_with_unparsed_parameters (kv : Store) (l o t : Js.num)
    (O T : Z) (nm : option string) :
  list_scan {| params.limit := l; params.offset := o;
               params.since := Js.NaN; params.name := nm |} kv =
  list_scan {| params.limit := l; params.offset := o;
               params.since := Js.Int 0; params.name := nm |} kv
  ∧ list_scan {| params.limit := l; params.offset := Js.NaN;
                 params.since := t; params.name := nm |} kv =
    list_scan {| params.limit := l; params.offset := Js.Int 0;
                 params.since := t; params.name := nm |} kv
  ∧ list_scan {| params.limit := Js.NaN; params.offset := Js.Int O;
                 params.since := Js.Int T; params.name := nm |} kv =
    (map to_listed
       (drop (Z.to_nat O) (filter (selected T nm) (kv_list "responses" kv))),
     length (kv_list "responses" kv)).
Proof.
  unfold list_scan. split; [apply list_loop_nan_since|].
  split; [apply list_loop_nan_offset|].
  rewrite list_loop_nan_limit. by rewrite Z.sub_0_r.
Qed.

(** ** Listings: metadata, the first variant, the query string *)

Lemma kv_list_length_le {V} (p : string) (kv : gmap KvKey V) :
  (length (kv_list p kv) ≤ size kv)%nat.
Proof.
  rewrite (Permutation_length (kv_list_perm p kv)), <- length_map_to_list.
  apply length_filter.
Qed.

Lemma list_scan_everything (kv : Store) (L : Z) :
  Z.of_nat (size kv) ≤ L →
  (list_scan (integer_params L 0 0 None) kv).1 =
  map to_listed (kv_list "responses" kv).
Proof.
  intros HL. rewrite list_scan_responses, filter_selected_all. unfold page.
  change (Z.to_nat 0) with 0%nat. rewrite drop_0, take_ge; [done|].
  pose proof (kv_list_length_le "responses" kv). lia.
Qed.

(** X4: the metadata of a listing with non-negative integer limit and
    offset: [count] is the number of records returned, which is the
    smaller of the limit and of what the filtered stream holds past the
    offset; the filters are echoed, a [since] of 0 and an empty or
    absent [name] as null. *)
Theorem list_metadata (kv : Store) (L O T : Z) (nm : option string) :
  0 ≤ L → 0 ≤ O →
  let passing :=
    Z.of_nat (length (filter (selected T nm) (kv_list "responses" kv))) in
  let reply := get_responses (integer_params L O T nm) kv in
  metadata <$> payload reply =
    Some {| meta_limit := Js.Int L;
            meta_offset := Js.Int O;
            count := Z.min L (Z.max 0 (passing - O));
            filters_since := if T =? 0 then Js.Null else Js.Num (Js.Int T);
            filters_name := if truthy_opt nm then opt_value nm else Js.Null |}
  ∧ (Z.of_nat ∘ length ∘ list_responses) <$> payload reply =
      Some (Z.min L (Z.max 0 (passing - O))).
Proof.
  intros HL HO passing reply. subst reply. unfold get_responses.
  rewrite list_scan_responses. cbn [payload fmap option_fmap option_map
    metadata list_responses integer_params params.limit params.offset
    params.since params.name compose].
  assert (Z.of_nat (length (map to_listed
            (page L O (filter (selected T nm) (kv_list "responses" kv)))))
          = Z.min L (Z.max 0 (passing - O))) as ->.
  { rewrite length_map. unfold page. rewrite length_take, length_drop.
    subst passing. lia. }
  split; [|done]. do 2 f_equal.
  - unfold Js.or. cbn [Js.truthy Js.truthy_num]. by destruct (T =? 0).
  - unfold Js.or. destruct nm as [n|]; [|done].
    cbn [opt_value Js.truthy truthy_opt]. by destruct (Js.truthy_str n).
Qed.

(** The store holding a, b, b, asked for two b past the first. *)
Lemma list_metadata_witness :
  0 ≤ 2 ∧ 0 ≤ 1
  ∧ count <$> (metadata <$>
      payload (get_responses (integer_params 2 1 0 (Some "b")) store_abb)) =
    Some 1.
Proof.
  split; [lia|]. split; [lia|].
  pose proof (list_metadata store_abb 2 1 0 (Some "b")
                ltac:(lia) ltac:(lia)) as [H _].
  rewrite H. vm_compute. reflexivity.
Defined.

Lemma plain_loop_spec (iter : list (KvKey * OnboardingResponse.t)) :
  ∀ acc, plain_loop iter acc = acc ++ map snd iter.
Proof.
  induction iter as [|e iter IH]; intros acc; simpl.
  - by rewrite app_nil_r.
  - by rewrite IH, <- app_assoc.
Qed.

(** X5: the first variant of the listing (main.ts) returns every
    record under the prefix in ascending key order, which is what the
    paginated listing returns, keys apart, when it is given no filter
    and a limit of at least the size of the store. *)
Theorem plain_listing_is_unfiltered_page (kv : Store) (L : Z) :
  Z.of_nat (size kv) ≤ L →
  get_responses_plain kv = Json 200 (map snd (kv_list "responses" kv))
  ∧ payload (get_responses_plain kv) =
      Some (map listed (list_scan (integer_params L 0 0 None) kv).1).
Proof.
  intros HL. unfold get_responses_plain. rewrite plain_loop_spec. cbn [app].
  split; [done|]. rewrite list_scan_everything by done.
  by rewrite map_map.
Qed.

Lemma plain_listing_is_unfiltered_page_witness :
  Z.of_nat (size store_abb) ≤ 100
  ∧ payload (get_responses_plain store_abb) =
      Some (map listed (list_scan (integer_params 100 0 0 None) store_abb).1).
Proof.
  assert (Z.of_nat (size store_abb) ≤ 100) as H by (vm_compute; discriminate).
  split; [exact H|].
  exact (proj2 (plain_listing_is_unfiltered_page store_abb 100 H)).
Defined.

(** X6: a request whose query gives no (or an empty) limit, offset and
    since is served with limit 100, offset 0 and no since filter: the
    reply holds the first 100 entries that pass the name filter. *)
Theorem list_defaults (parseInt : string → Js.num)
    (query : list (string * string)) (kv : Store) :
  parseInt "100" = Js.Int 100 →
  parseInt "0" = Js.Int 0 →
  truthy_opt (searchParams_get query "limit") = false →
  truthy_opt (searchParams_get query "offset") = false →
  truthy_opt (searchParams_get query "since") = false →
  let nm := searchParams_get query "name" in
  read_params parseInt query = integer_params 100 0 0 nm
  ∧ list_responses <$> payload (get_responses_url parseInt query kv) =
      Some (map to_listed
              (take 100 (filter (selected 0 nm) (kv_list "responses" kv)))).
Proof.
  intros H100 H0 Hl Ho Hs nm.
  assert (∀ s d, truthy_opt s = false → or_string s d = d) as Hor.
  { intros [s|] d; simpl; [|done]. by intros ->. }
  assert (read_params parseInt query = integer_params 100 0 0 nm) as Hp.
  { unfold read_params. by rewrite !Hor, H100, H0 by done. }
  split; [exact Hp|].
  unfold get_responses_url, get_responses. rewrite Hp, list_scan_responses.
  unfold page. change (Z.to_nat 0) with 0%nat. by rewrite drop_0.
Qed.

Lemma list_defaults_witness :
  parseInt_defaults "100" = Js.Int 100
  ∧ parseInt_defaults "0" = Js.Int 0
  ∧ truthy_opt (searchParams_get [("name", "b"); ("limit", "")] "limit") = false
  ∧ read_params parseInt_defaults [("name", "b"); ("limit", "")] =
      integer_params 100 0 0 (Some "b").
Proof.
  split; [reflexivity|]. split; [reflexivity|]. split; [reflexivity|].
  exact (proj1 (list_defaults parseInt_defaults [("name", "b"); ("limit", "")] ∅
                  eq_refl eq_refl eq_refl eq_refl eq_refl)).
Defined.

(** ** Writes *)

Lemma elem_of_list_scan_everything (kv : Store) (L : Z) (x : ListedResponse) :
  Z.of_nat (size kv) ≤ L →
  x ∈ (list_scan (integer_params L 0 0 None) kv).1 ↔
  kv !! key x = Some (listed x) ∧ (key x).1.1 = "responses".
Proof.
  intros HL. rewrite list_scan_everything by done.
  rewrite list_elem_of_fmap. split.
  - intros ([k r] & -> & He). by apply elem_of_kv_list in He.
  - intros H. exists (key x, listed x). split; [by destruct x|].
    by apply elem_of_kv_list.
Qed.

(** X7: write, then list.  After a write the store accepted, the full
    listing (no filter, limit at least the size of the store) holds the
    stored record, its name as given, under the key the store keeps it
    at, ("responses", now, the name with every unpaired surrogate
    replaced by U+FFFD), and holds nothing else under that key. *)
Theorem write_then_list (f : KvFaults) (now : Z) (name : string)
    (responses : Js.value) (kv : Store) (L : Z) :
  let k := ("responses", now, name) in
  let stored := ("responses", now, Js.usv name) in
  let kv' := (post_responses f now name responses kv).2 in
  accepted responses = true →
  set_fails f k = false →
  Z.of_nat (size kv') ≤ L →
  let rs := (list_scan (integer_params L 0 0 None) kv').1 in
  to_listed (stored, stored_response now name responses) ∈ rs
  ∧ ∀ x, x ∈ rs → key x = stored →
         x = to_listed (stored, stored_response now name responses).
Proof.
  intros k stored kv' Hacc Hset HL rs.
  assert (kv' = <[stored := stored_response now name responses]> kv) as Hkv'.
  { subst kv'. rewrite post_responses_accepted by done. fold k. by rewrite Hset. }
  split.
  - apply elem_of_list_scan_everything; [done|]. simpl.
    split; [|done]. rewrite Hkv'. apply lookup_insert_eq.
  - intros [r k'] Hx Hk. simpl in Hk. subst k'.
    apply elem_of_list_scan_everything in Hx as [Hx _]; [|done].
    simpl in Hx. rewrite Hkv', lookup_insert_eq in Hx. by injection Hx as <-.
Qed.

(** A write for the name U+D800 into the store holding a, b, b: the
    record is listed under the key whose name is U+FFFD. *)
Lemma write_then_list_witness :
  accepted (Js.Obj [("teachLLMs", Js.Str "yes")]) = true
  ∧ set_fails no_faults ("responses", 4, lone_surrogate) = false
  ∧ to_listed (("responses", 4, Js.replacement),
               stored_response 4 lone_surrogate
                 (Js.Obj [("teachLLMs", Js.Str "yes")]))
    ∈ (list_scan (integer_params 100 0 0 None)
         (post_responses no_faults 4 lone_surrogate
            (Js.Obj [("teachLLMs", Js.Str "yes")]) store_abb).2).1.
Proof.
  split; [reflexivity|]. split; [reflexivity|].
  apply (write_then_list no_faults 4 lone_surrogate
           (Js.Obj [("teachLLMs", Js.Str "yes")]) store_abb 100);
    [reflexivity | reflexivity | vm_compute; discriminate].
Defined.

(** X8: last write wins.  A second accepted write under the same
    timestamp and name replaces what the first left: the outcome is
    that of the second write alone.  No write makes the store smaller
    or adds more than one record. *)
Theorem write_last_wins (f : KvFaults) (now : Z) (name : string)
    (r1 r2 : Js.value) (kv : Store) :
  accepted r2 = true →
  set_fails f ("responses", now, name) = false →
  post_responses f now name r2 (post_responses f now name r1 kv).2 =
    post_responses f now name r2 kv
  ∧ (size kv ≤ size (post_responses f now name r1 kv).2 ≤ S (size kv))%nat.
Proof.
  intros H2 Hf. split.
  - rewrite !(post_responses_accepted f now name r2) by done. rewrite Hf.
    f_equal. destruct (accepted r1) eqn:H1.
    + rewrite post_responses_accepted by done. rewrite Hf. cbn [snd].
      apply insert_insert_eq.
    + by rewrite post_responses_rejected.
  - destruct (accepted r1) eqn:H1.
    + rewrite post_responses_accepted by done. rewrite Hf. cbn [snd].
      rewrite map_size_insert. destruct (kv !! _); simpl; lia.
    + rewrite post_responses_rejected by done. simpl. lia.
Qed.

Lemma write_last_wins_witness :
  accepted (Js.Obj []) = true
  ∧ set_fails no_faults ("responses", 3, "b") = false
  ∧ post_responses no_faults 3 "b" (Js.Obj [])
      (post_responses no_faults 3 "b" (Js.Obj [("teachLLMs", Js.Str "x")])
         store_abb).2 =
    post_responses no_faults 3 "b" (Js.Obj []) store_abb.
Proof.
  split; [reflexivity|]. split; [reflexivity|].
  exact (proj1 (write_last_wins no_faults 3 "b"
                  (Js.Obj [("teachLLMs", Js.Str "x")]) (Js.Obj []) store_abb
                  eq_refl eq_refl)).
Defined.

Lemma answer_defaulted (r : Js.value) (field : string) :
  defaulted (answer r field).
Proof.
  unfold defaulted, answer, Js.or. destruct r; try (by right).
  destruct (Js.truthy (Js.lookup_field field fields)) eqn:E; [by left|by right].
Qed.

Lemma delete_responses_name_lookup (f : KvFaults) (name : option string)
    (kv : Store) (k : KvKey) (r : OnboardingResponse.t) :
  (delete_responses_name f name kv).2 !! k = Some r → kv !! k = Some r.
Proof.
  destruct name as [name|]; [|done].
  destruct (decide (name = "")) as [->|Hne]; [done|].
  rewrite delete_responses_name_spec by done. simpl.
  by intros [H _]%map_lookup_filter_Some.
Qed.

(** X9: in every store reached by writes and deletes, both answer
    fields of every record are either truthy or the empty string: a
    missing, null, false, 0 or NaN answer is never stored as such. *)
Theorem answers_defaulted_reachable (ops : list Op) :
  map_Forall (λ _ r, answers_defaulted r) (run_ops ops ∅).
Proof.
  assert (∀ kv : Store,
            map_Forall (λ _ r, answers_defaulted r) kv →
            map_Forall (λ _ r, answers_defaulted r) (run_ops ops kv)) as H.
  { induction ops as [|op ops IH]; intros kv Hkv; [done|].
    apply IH. destruct op as [f now name r|f name]; simpl.
    - destruct (accepted r) eqn:Hr.
      + rewrite post_responses_accepted by done.
        destruct (set_fails f _); simpl; [done|].
        apply map_Forall_insert_2; [|done].
        split; apply answer_defaulted.
      + by rewrite post_responses_rejected.
    - intros k r Hk. apply delete_responses_name_lookup in Hk. by apply (Hkv k). }
  apply H, map_Forall_empty.
Qed.

(** ** Scans of a filtered store *)

Lemma kv_list_NoDup {V} (p : string) (kv : gmap KvKey V) : NoDup (kv_list p kv).
Proof. eapply NoDup_fmap_1, kv_list_NoDup_keys. Qed.

Lemma kv_list_filter (Q : KvKey * OnboardingResponse.t → Prop)
    `{!∀ e, Decision (Q e)} (kv : Store) :
  kv_list "responses" (filter Q kv) ≡ₚ filter Q (kv_list "responses" kv).
Proof.
  apply list.NoDup_Permutation.
  - apply (kv_list_NoDup "responses").
  - apply NoDup_filter, (kv_list_NoDup "responses").
  - intros [k r].
    rewrite list_elem_of_filter, !elem_of_kv_list, map_lookup_filter_Some.
    tauto.
Qed.

Lemma stats_total (kv : Store) :
  total <$> payload (get_responses_stats kv) =
  Some (Z.of_nat (length (kv_list "responses" kv))).
Proof.
  unfold get_responses_stats, stats_loop. rewrite stats_loop_spec. simpl.
  done.
Qed.

Lemma kv_list_length_keys_encode (kv : Store) :
  keys_encode kv → length (kv_list "responses" kv) = size kv.
Proof.
  intros Hkv. rewrite <- length_map_to_list.
  by apply Permutation_length, kv_list_all.
Qed.

(** X10: write, then stats.  On a store reached by writes and deletes,
    a write the store accepted raises [total] by one when no record was
    stored under the key the store keeps it at, ("responses", now, the
    name with every unpaired surrogate replaced by U+FFFD), and leaves
    [total] as it was when it replaced one, which a write for another
    name does when both names encode alike. *)
Theorem write_then_stats (ops : list Op) (f : KvFaults) (now : Z)
    (name : string) (responses : Js.value) :
  let kv := run_ops ops ∅ in
  let k := ("responses", now, name) in
  let stored := ("responses", now, Js.usv name) in
  accepted responses = true →
  set_fails f k = false →
  total <$> payload (get_responses_stats kv) = Some (Z.of_nat (size kv))
  ∧ total <$> payload
      (get_responses_stats (post_responses f now name responses kv).2) =
    Some (Z.of_nat (size kv)
          + match kv !! stored with Some _ => 0 | None => 1 end).
Proof.
  intros kv k stored Hacc Hf.
  assert (keys_encode kv) as Hkv by apply run_ops_keys_encode, map_Forall_empty.
  assert (keys_encode (post_responses f now name responses kv).2) as Hkv'
    by by apply post_responses_keys_encode.
  rewrite !stats_total, !kv_list_length_keys_encode by done.
  split; [done|].
  rewrite post_responses_accepted by done. fold k stored. rewrite Hf. cbn [snd].
  destruct (kv !! stored) as [r|] eqn:E.
  - rewrite map_size_insert_Some by (exists r; exact E). by rewrite Z.add_0_r.
  - rewrite map_size_insert_None by exact E.
    by rewrite Nat2Z.inj_succ, Z.add_1_r.
Qed.

(** The store holding the name U+D800 at 1, and a write at 1 for the
    name U+D801: it replaces the record, and the total stays 1. *)
Lemma write_then_stats_witness :
  accepted (Js.Obj []) = true
  ∧ set_fails no_faults ("responses", 1, other_surrogate) = false
  ∧ total <$> payload
      (get_responses_stats
         (post_responses no_faults 1 other_surrogate (Js.Obj []) store_lone).2) =
    Some 1.
Proof.
  split; [reflexivity|]. split; [reflexivity|].
  exact (proj2 (write_then_stats
                  [Write no_faults 1 lone_surrogate (Js.Obj [])]
                  no_faults 1 other_surrogate (Js.Obj []) eq_refl eq_refl)).
Defined.

(** ** Deletes *)

Lemma truthy_str_nonempty (s : string) : s ≠ "" → Js.truthy_str s = true.
Proof. intros H. unfold Js.truthy_str. by destruct (String.eqb_spec s ""). Qed.

Lemma named_eq (name : string) (e : KvKey * OnboardingResponse.t) :
  named name e = true ↔ OnboardingResponse.name e.2 = name.
Proof. unfold named. apply String.eqb_eq. Qed.

Lemma filter_none {A} (P : A → Prop) `{!∀ x, Decision (P x)} (l : list A) :
  (∀ x, x ∈ l → ¬ P x) → filter P l = [].
Proof.
  intros Hno. apply elem_of_nil_inv. intros x [HP Hx]%list_elem_of_filter.
  by apply (Hno x).
Qed.

(** X11: delete, then list.  After a delete by a non-empty name on a
    sound backend, a listing filtered by that name returns no record,
    whatever its limit, offset and since. *)
Theorem delete_then_list_empty (f : KvFaults) (name : string) (kv : Store)
    (L O T : Z) :
  name ≠ "" → sound f →
  (list_scan (integer_params L O T (Some name))
     (delete_responses_name f (Some name) kv).2).1 = [].
Proof.
  intros Hname Hf. rewrite list_scan_responses.
  rewrite delete_responses_name_spec by done. cbn [snd].
  rewrite filter_none; [unfold page; by rewrite drop_nil, take_nil|].
  intros [k r] [Hk Hp]%elem_of_kv_list Hsel.
  apply map_lookup_filter_Some in Hk as [Hk Hrem].
  unfold removed in Hrem. simpl in *. rewrite Hp, (Hf k) in Hrem.
  simpl in Hrem. rewrite andb_true_r in Hrem.
  unfold selected in Hsel. apply andb_prop_elim in Hsel as [_ Hsel].
  cbn [truthy_opt] in Hsel. rewrite truthy_str_nonempty in Hsel by done.
  simpl in Hsel. unfold named in Hrem. simpl in Hrem.
  rewrite Hrem in Hsel. exact Hsel.
Qed.

Lemma delete_then_list_empty_witness :
  "b" ≠ "" ∧ sound no_faults
  ∧ (list_scan (integer_params 100 0 0 (Some "b"))
       (delete_responses_name no_faults (Some "b") store_abb).2).1 = [].
Proof.
  assert ("b" ≠ "") as H1 by discriminate.
  assert (sound no_faults) as H2 by (intros k; reflexivity).
  split; [exact H1|]. split; [exact H2|].
  exact (delete_then_list_empty no_faults "b" store_abb 100 0 0 H1 H2).
Defined.

Lemma delete_absent (f : KvFaults) (name : string) (kv : Store) :
  name ≠ "" →
  (∀ k r, kv !! k = Some r → k.1.1 = "responses" →
          OnboardingResponse.name r ≠ name) →
  delete_responses_name f (Some name) kv =
    (Json 200 {| delete_success := true; deleted := 0;
                 message := delete_message 0 name |}, kv).
Proof.
  intros Hname Habs. rewrite delete_responses_name_spec by done.
  assert (filter (named name) (kv_list "responses" kv) = []) as ->.
  { apply filter_none. intros [k r] [Hk Hp]%elem_of_kv_list Hn.
    apply Is_true_true, named_eq in Hn. by apply (Habs k r). }
  cbn [forallb length Z.of_nat]. f_equal.
  apply map_filter_id. intros k r Hk. unfold removed. simpl.
  destruct (String.eqb_spec k.1.1 "responses") as [Hp|]; [|done].
  destruct (named name (k, r)) eqn:Hn; [|done].
  apply named_eq in Hn. by destruct (Habs k r Hk Hp).
Qed.

(** X12: deleting a name no record carries.  The reply is 200 with
    [deleted] 0, not an error, and the store is left as it was,
    whatever the backend would have done with a delete. *)
Theorem delete_absent_name (f : KvFaults) (name : string) (kv : Store) :
  name ≠ "" →
  (∀ k r, kv !! k = Some r → OnboardingResponse.name r ≠ name) →
  delete_responses_name f (Some name) kv =
    (Json 200 {| delete_success := true; deleted := 0;
                 message := "Deleted 0 responses for " +:+ name |}, kv).
Proof.
  intros Hname Habs. apply delete_absent; [done|]. intros k r Hk _.
  by apply (Habs k r).
Qed.

(** The store holding a, b, b, none of them named zed, on a backend
    that would reject the delete of the a. *)
Lemma delete_absent_name_witness :
  "zed" ≠ ""
  ∧ (∀ k r, store_abb !! k = Some r → OnboardingResponse.name r ≠ "zed")
  ∧ delete_responses_name (delete_rejected ("responses", 1, "a"))
      (Some "zed") store_abb =
    (Json 200 {| delete_success := true; deleted := 0;
                 message := "Deleted 0 responses for zed" |}, store_abb).
Proof.
  assert ("zed" ≠ "") as H1 by discriminate.
  assert (∀ k r, store_abb !! k = Some r → OnboardingResponse.name r ≠ "zed")
    as H2.
  { assert (Forall (λ e : KvKey * OnboardingResponse.t,
                       OnboardingResponse.name e.2 ≠ "zed")
              (map_to_list store_abb)) as HF.
    { vm_compute. repeat (constructor; [intros [=]|]). constructor. }
    intros k r Hk. apply elem_of_map_to_list in Hk.
    by apply (proj1 (Forall_forall _ _) HF (k, r)). }
  split; [exact H1|]. split; [exact H2|].
  exact (delete_absent_name (delete_rejected ("responses", 1, "a")) "zed"
           store_abb H1 H2).
Defined.

Lemma removed_sound_absent (f : KvFaults) (name : string) (kv : Store) :
  sound f →
  ∀ k r, filter (λ e, removed f name e = false) kv !! k = Some r →
         k.1.1 = "responses" → OnboardingResponse.name r ≠ name.
Proof.
  intros Hf k r [Hk Hrem]%map_lookup_filter_Some Hp Hn.
  unfold removed in Hrem. simpl in Hrem.
  assert (named name (k, r) = true) as Hn' by by apply named_eq.
  by rewrite Hp, (Hf k), Hn' in Hrem.
Qed.

(** X13: deleting twice.  On a sound backend a second delete by the
    same name finds nothing: it reports [deleted] 0 and leaves the
    store as the first left it. *)
Theorem delete_twice (f : KvFaults) (name : string) (kv : Store) :
  name ≠ "" → sound f →
  let kv' := (delete_responses_name f (Some name) kv).2 in
  delete_responses_name f (Some name) kv' =
    (Json 200 {| delete_success := true; deleted := 0;
                 message := "Deleted 0 responses for " +:+ name |}, kv').
Proof.
  intros Hname Hf kv'. apply delete_absent; [done|].
  subst kv'. rewrite delete_responses_name_spec by done. cbn [snd].
  by apply removed_sound_absent.
Qed.

Lemma delete_twice_witness :
  "a" ≠ "" ∧ sound no_faults
  ∧ (delete_responses_name no_faults (Some "a")
       (delete_responses_name no_faults (Some "a") store_aba).2).1 =
    Json 200 {| delete_success := true; deleted := 0;
                message := "Deleted 0 responses for a" |}.
Proof.
  assert ("a" ≠ "") as H1 by discriminate.
  assert (sound no_faults) as H2 by (intros k; reflexivity).
  split; [exact H1|]. split; [exact H2|].
  exact (f_equal fst (delete_twice no_faults "a" store_aba H1 H2)).
Defined.

Lemma length_filter_split {A} (P : A → Prop) `{!∀ x, Decision (P x)} (l : list A) :
  length l = (length (filter P l) + length (filter (λ x, ¬ P x) l))%nat.
Proof.
  rewrite <- length_app. symmetry. apply Permutation_length, filter_app_complement.
Qed.

Lemma filter_iff_in {A} (P Q : A → Prop) `{!∀ x, Decision (P x)}
    `{!∀ x, Decision (Q x)} (l : list A) :
  (∀ x, x ∈ l → (P x ↔ Q x)) → filter P l = filter Q l.
Proof.
  induction l as [|x l IH]; intros Hl; [done|].
  assert (filter P l = filter Q l) as IH'.
  { apply IH. intros y Hy. apply Hl. by apply elem_of_cons; right. }
  assert (P x ↔ Q x) as Hx by (apply Hl, elem_of_cons; by left).
  destruct (decide (P x)) as [HP|HP].
  - rewrite !filter_cons_True by tauto. by rewrite IH'.
  - rewrite !filter_cons_False by tauto. done.
Qed.

Lemma kv_list_after_delete (f : KvFaults) (name : string) (kv : Store) :
  name ≠ "" →
  kv_list "responses" (delete_responses_name f (Some name) kv).2 ≡ₚ
  filter (λ e, ¬ (named name e ∧ delete_fails f e.1 = false))
    (kv_list "responses" kv).
Proof.
  intros Hname. rewrite delete_responses_name_spec by done. cbn [snd].
  rewrite kv_list_filter. apply reflexive_eq, filter_iff_in.
  intros [k r] [_ Hp]%elem_of_kv_list. unfold removed. simpl in *.
  rewrite Hp. simpl.
  destruct (named name (k, r)), (delete_fails f k); simpl;
    intuition (discriminate || auto).
Qed.

(** X14: delete, then stats.  On a sound backend the count a delete by
    name reports is exactly what [total] loses: the number of records
    before is [deleted] plus the number of records after. *)
Theorem delete_conserves_total (f : KvFaults) (name : string) (kv : Store) :
  name ≠ "" → sound f →
  let out := delete_responses_name f (Some name) kv in
  total <$> payload (get_responses_stats kv) = Some (records kv)
  ∧ total <$> payload (get_responses_stats out.2) = Some (records out.2)
  ∧ deleted <$> payload out.1 = Some (records kv - records out.2).
Proof.
  intros Hname Hf out. rewrite !stats_total. split; [done|]. split; [done|].
  unfold records. subst out.
  rewrite (Permutation_length (kv_list_after_delete f name kv Hname)).
  rewrite delete_responses_name_spec by done. cbn [fst].
  assert (forallb (λ e : KvKey * OnboardingResponse.t, negb (delete_fails f e.1))
            (filter (named name) (kv_list "responses" kv)) = true) as ->.
  { apply forallb_forall. intros e _. by rewrite (Hf e.1). }
  cbn [payload fmap option_fmap option_map deleted]. f_equal.
  rewrite (length_filter_split (named name) (kv_list "responses" kv)).
  rewrite (filter_iff_in (λ e, ¬ (named name e ∧ delete_fails f e.1 = false))
             (λ e, ¬ named name e)).
  - lia.
  - intros e _. rewrite (Hf e.1). intuition (discriminate || congruence || auto).
Qed.

Lemma delete_conserves_total_witness :
  "b" ≠ "" ∧ sound no_faults
  ∧ deleted <$> payload (delete_responses_name no_faults (Some "b") store_abb).1 =
    Some (records store_abb
          - records (delete_responses_name no_faults (Some "b") store_abb).2).
Proof.
  assert ("b" ≠ "") as H1 by discriminate.
  assert (sound no_faults) as H2 by (intros k; reflexivity).
  split; [exact H1|]. split; [exact H2|].
  exact (proj2 (proj2 (delete_conserves_total no_faults "b" store_abb H1 H2))).
Defined.

(** X15: a retry completes the sweep.  After a delete by name that the
    backend served only in part, a second delete by the same name on a
    sound backend reports as [deleted] the number of matched records
    whose delete had failed, and leaves the store as a first delete on
    a sound backend would have. *)
Theorem delete_retry_completes (f g : KvFaults) (name : string) (kv : Store) :
  name ≠ "" → sound g →
  let failed :=
    filter (λ e, named name e ∧ delete_fails f e.1 = true)
      (kv_list "responses" kv) in
  delete_responses_name g (Some name)
    (delete_responses_name f (Some name) kv).2 =
  (Json 200 {| delete_success := true;
               deleted := Z.of_nat (length failed);
               message := delete_message (Z.of_nat (length failed)) name |},
   (delete_responses_name g (Some name) kv).2).
Proof.
  intros Hname Hg failed.
  rewrite (delete_responses_name_spec g) by done. cbv zeta.
  assert (∀ l : list (KvKey * OnboardingResponse.t),
            forallb (λ e, negb (delete_fails g e.1)) l = true) as Hall.
  { intros l. apply forallb_forall. intros e _. by rewrite (Hg e.1). }
  rewrite Hall.
  assert (length (filter (named name)
            (kv_list "responses" (delete_responses_name f (Some name) kv).2))
          = length failed) as ->.
  { rewrite (kv_list_after_delete f name kv Hname), list_filter_filter.
    subst failed. f_equal. apply filter_iff_in. intros e _.
    destruct (delete_fails f e.1); intuition (discriminate || congruence || auto). }
  f_equal.
  rewrite !delete_responses_name_spec by done. cbn [snd].
  apply map_eq. intros k. apply option_eq. intros r.
  rewrite !map_lookup_filter_Some. unfold removed. simpl.
  rewrite !(Hg k), !andb_true_r.
  destruct (String.eqb k.1.1 "responses" && named name (k, r)); simpl;
    intuition (discriminate || congruence || auto).
Qed.

Lemma delete_retry_completes_witness :
  "a" ≠ "" ∧ sound no_faults
  ∧ (delete_responses_name no_faults (Some "a")
       (delete_responses_name (delete_rejected ("responses", 3, "a"))
          (Some "a") store_aba).2).1 =
    Json 200 {| delete_success := true; deleted := 1;
                message := "Deleted 1 responses for a" |}.
Proof.
  assert ("a" ≠ "") as H1 by discriminate.
  assert (sound no_faults) as H2 by (intros k; reflexivity).
  split; [exact H1|]. split; [exact H2|].
  rewrite (delete_retry_completes (delete_rejected ("responses", 3, "a"))
             no_faults "a" store_aba H1 H2).
  vm_compute. reflexivity.
Defined.

(** ** Statistics *)

Lemma length_remove_dups_le (l : list string) :
  (length (remove_dups l) ≤ length l)%nat.
Proof.
  induction l as [|x l IH]; simpl; [done|].
  destruct (decide_rel elem_of x l); simpl; lia.
Qed.

Lemma remove_dups_nil_inv (l : list string) : remove_dups l = [] → l = [].
Proof.
  intros H. apply elem_of_nil_inv. intros x Hx.
  apply elem_of_remove_dups in Hx. rewrite H in Hx. by apply elem_of_nil in Hx.
Qed.

(** X16: for every store, [total] is the number of records under the
    prefix and [uniqueParticipants] the number of distinct names among
    them; the participants are never more than the records, and there
    is none exactly when there is no record. *)
Theorem stats_counts_bounded (kv : Store) :
  let entries := kv_list "responses" kv in
  total <$> payload (get_responses_stats kv) = Some (Z.of_nat (length entries))
  ∧ uniqueParticipants <$> payload (get_responses_stats kv) =
      Some (Z.of_nat (distinct_names entries))
  ∧ (distinct_names entries ≤ length entries)%nat
  ∧ (distinct_names entries = 0%nat ↔ entries = []).
Proof.
  intros entries. split; [apply stats_total|]. split.
  - unfold get_responses_stats, stats_loop. rewrite stats_loop_spec.
    cbn [payload fmap option_fmap option_map uniqueParticipants
         stats.uniqueNames stats_init].
    by rewrite union_empty_r_L, size_names.
  - unfold distinct_names. split.
    + etrans; [apply length_remove_dups_le|]. by rewrite length_map.
    + split.
      * intros H%length_zero_iff_nil%remove_dups_nil_inv.
        by apply fmap_nil_inv in H.
      * by intros ->.
Qed.

Lemma min_le_max_timestamp (l : list (KvKey * OnboardingResponse.t)) (m M : Z) :
  min_timestamp l = Some m → max_timestamp l = Some M → m ≤ M.
Proof.
  destruct l as [|e l]; [done|].
  cbn [min_timestamp max_timestamp foldr].
  fold (min_timestamp l). fold (max_timestamp l).
  intros [= <-] [= <-].
  destruct (min_timestamp l), (max_timestamp l); simpl; lia.
Qed.

(** X17: when the store holds at least one record (timestamps being
    positive, as [Date.now()] gives them), [first] and [last] are both
    numbers, [first] is not after [last], and [durationMs] is their
    difference, so never negative. *)
Theorem stats_time_range (kv : Store) :
  let entries := kv_list "responses" kv in
  Forall (λ e, 0 < OnboardingResponse.timestamp e.2) entries →
  entries ≠ [] →
  ∃ m M,
    timeRange <$> payload (get_responses_stats kv) =
      Some {| first := Js.Num (Js.Int m);
              last := Js.Num (Js.Int M);
              durationMs := Js.Int (M - m) |}
    ∧ m ≤ M
    ∧ min_timestamp entries = Some m
    ∧ max_timestamp entries = Some M.
Proof.
  intros entries Hpos Hne. rewrite get_responses_stats_spec by done.
  fold entries.
  destruct (min_timestamp entries) as [m|] eqn:Em; [|by destruct entries].
  destruct (max_timestamp entries) as [M|] eqn:EM; [|by destruct entries].
  exists m, M. split; [done|]. split; [|done].
  by eapply min_le_max_timestamp.
Qed.

Lemma stats_time_range_witness :
  Forall (λ e, 0 < OnboardingResponse.timestamp e.2) (kv_list "responses" store_abb)
  ∧ kv_list "responses" store_abb ≠ []
  ∧ ∃ m M,
      timeRange <$> payload (get_responses_stats store_abb) =
        Some {| first := Js.Num (Js.Int m);
                last := Js.Num (Js.Int M);
                durationMs := Js.Int (M - m) |}
      ∧ m ≤ M
      ∧ min_timestamp (kv_list "responses" store_abb) = Some m
      ∧ max_timestamp (kv_list "responses" store_abb) = Some M.
Proof.
  assert (Forall (λ e, 0 < OnboardingResponse.timestamp e.2)
            (kv_list "responses" store_abb)) as H1.
  { vm_compute. repeat constructor. }
  assert (kv_list "responses" store_abb ≠ []) as H2.
  { vm_compute. discriminate. }
  split; [exact H1|]. split; [exact H2|].
  exact (stats_time_range store_abb H1 H2).
Defined.

(** ** The chat handler *)

(** X18: the handler calls the upstream at most once, and only with
    the [messages] array of the body, passed on as it came, the
    configured model and [stream: true]; a body without such an array
    causes no call. *)
Theorem chat_calls_upstream_at_most_once (modelName : string)
    (create : CreateCall → Js.result UpstreamStream) (body : Js.value) :
  (post_chat modelName create body).2 =
    match forwarded body with
    | Some messages =>
        [{| model := modelName; messages := messages; stream := true |}]
    | None => []
    end
  ∧ (length (post_chat modelName create body).2 ≤ 1)%nat.
Proof.
  assert ((post_chat modelName create body).2 =
          match forwarded body with
          | Some messages =>
              [{| model := modelName; messages := messages; stream := true |}]
          | None => []
          end) as H.
  { unfold post_chat, forwarded.
    destruct (Js.get body "messages") as [m|e]; [|done].
    destruct (Js.isArray m) eqn:Ha.
    - destruct m; try discriminate. cbn [Js.truthy negb orb].
      destruct (create _) as [s|e]; [|done]. by destruct (start s new_stream).
    - rewrite orb_true_r. by destruct m. }
  split; [exact H|]. rewrite H. destruct (forwarded body); simpl; lia.
Qed.

(** X19: the handler with its headers.  Every reply carries the open
    CORS header.  The event-stream headers are set exactly when the
    upstream is called: they are on the reply also when that call
    throws and the body is the 500 JSON error.  Headers apart, the
    reply and the calls are those of the handler without headers; a
    body that fails to parse is answered 500 with no call. *)
Theorem chat_reply_headers (modelName : string)
    (create : CreateCall → Js.result UpstreamStream) (body : Js.value)
    (e : Js.exn) :
  let out := post_chat_ctx modelName create (Js.Ok body) in
  chat_headers out.1 !! "Access-Control-Allow-Origin" = Some "*"
  ∧ chat_headers out.1 !! "Content-Type" =
      match forwarded body with
      | Some _ => Some "text/event-stream"
      | None => None
      end
  ∧ plain_reply out.1 = (post_chat modelName create body).1
  ∧ out.2 = (post_chat modelName create body).2
  ∧ post_chat_ctx modelName create (Js.Throw e) =
      ({| chat_status := Some 500;
          chat_headers := {["Access-Control-Allow-Origin" := "*"]};
          chat_body := BodyError "Internal server error" |}, []).
Proof.
  intros out. subst out. unfold post_chat_ctx, post_chat, forwarded.
  destruct (Js.get body "messages") as [m|e']; [|done].
  destruct (Js.isArray m) eqn:Ha.
  - destruct m; try discriminate. cbn [Js.truthy negb orb].
    destruct (create _) as [s|e']; [|done].
    by destruct (start s new_stream).
  - rewrite orb_true_r. by destruct m.
Qed.

Lemma texts_app (cs cs' : list Chunk) : texts (cs ++ cs') = texts cs ++ texts cs'.
Proof.
  induction cs as [|c cs IH]; [done|]. cbn [app texts].
  destruct (chunk_content c) as [s|]; [|done].
  destruct (Js.truthy_str s); [|done]. by rewrite IH.
Qed.

(** X20: the relay is incremental.  What it has emitted when the
    upstream breaks after some chunks is a prefix of what it emits when
    the upstream goes on: further chunks only append their frames, and
    natural closure only appends the done frame. *)
Theorem relay_output_extends (cs cs' : list Chunk) :
  enqueued (start {| chunks := cs ++ cs'; ending := Fails |} new_stream).2 =
    enqueued (start {| chunks := cs; ending := Fails |} new_stream).2
    ++ map frame (texts cs')
  ∧ enqueued (start {| chunks := cs; ending := NaturalEnd |} new_stream).2 =
      enqueued (start {| chunks := cs; ending := Fails |} new_stream).2
      ++ [frame "[DONE]"].
Proof.
  rewrite !start_fails, start_natural_end. cbn [snd enqueued].
  by rewrite texts_app, map_app.
Qed.

Lemma list_byte_of_append (a b : string) :
  String.list_byte_of_string (a +:+ b) =
  String.list_byte_of_string a ++ String.list_byte_of_string b.
Proof.
  unfold String.list_byte_of_string.
  by rewrite list_ascii_of_append, map_app.
Qed.

Lemma usv_app_plain (t : string) :
  plain t = true →
  ∀ (n : nat) (s : string),
    (String.length s ≤ n)%nat → Js.usv (s +:+ t) = Js.usv s +:+ t.
Proof.
  intros Ht. induction n as [|n IH]; intros s Hn.
  { destruct s; [|simpl in Hn; lia]. simpl. by apply usv_plain. }
  destruct s as [|c [|c1 [|c2 rest]]].
  - simpl. by apply usv_plain.
  - change (String c "" +:+ t) with (String c t).
    destruct (usv_cons c t) as [H|(d1 & d2 & rest & -> & Hs & _)].
    + rewrite H, (usv_plain t) by done. reflexivity.
    + cbn [plain] in Ht. apply andb_true_iff in Ht as [Hd _].
      apply N.ltb_lt in Hd. apply surrogate_bytes_inv in Hs. lia.
  - change (String c (String c1 "") +:+ t) with (String c (String c1 t)).
    destruct t as [|d t'].
    + reflexivity.
    + assert (Js.surrogate_bytes c c1 d = false) as Hs.
      { cbn [plain] in Ht. apply andb_true_iff in Ht as [Hd _].
        apply N.ltb_lt in Hd.
        destruct (Js.surrogate_bytes c c1 d) eqn:Hs; [|done].
        apply surrogate_bytes_inv in Hs. lia. }
      rewrite usv_3, Hs.
      change (String c1 (String d t')) with (String c1 "" +:+ String d t').
      rewrite (IH (String c1 "")) by (simpl; simpl in Hn; lia).
      reflexivity.
  - change (String c (String c1 (String c2 rest)) +:+ t)
      with (String c (String c1 (String c2 (rest +:+ t)))).
    rewrite !usv_3. destruct (Js.surrogate_bytes c c1 c2).
    + rewrite (IH rest) by (simpl in Hn; lia). reflexivity.
    + change (String c1 (String c2 (rest +:+ t)))
        with (String c1 (String c2 rest) +:+ t).
      rewrite (IH (String c1 (String c2 rest))) by (simpl in Hn; simpl; lia).
      reflexivity.
Qed.

Lemma usv_plain_app (a s : string) :
  plain a = true → Js.usv (a +:+ s) = a +:+ Js.usv s.
Proof.
  induction a as [|c a IH]; [done|]. cbn [plain].
  intros [Hc Ha]%andb_true_iff.
  change (String c a +:+ s) with (String c (a +:+ s)).
  rewrite usv_cons_plain by done.
  change (String c a +:+ Js.usv s) with (String c (a +:+ Js.usv s)).
  f_equal. by apply IH.
Qed.

(** Encoding touches the text of a frame only. *)
Lemma usv_data_frame (text : string) :
  Js.usv (data_frame text) = data_frame (Js.usv text).
Proof.
  unfold data_frame. rewrite usv_plain_app by reflexivity. f_equal.
  by apply (usv_app_plain (LF +:+ LF) eq_refl (String.length text)).
Qed.

(** X21: a frame is the bytes of "data: ", then the UTF-8 bytes of the
    text, in which every unpaired surrogate has become U+FFFD and
    nothing else has changed (line feeds included: nothing is escaped
    or split), then two line feeds.  Two texts give the same frame
    exactly when they agree after that replacement: two different
    unpaired surrogates give one frame, two well-formed texts only when
    they are the same text. *)
Theorem frame_carries_text (text text' : string) :
  frame text =
    String.list_byte_of_string "data: "
    ++ String.list_byte_of_string (Js.usv text) ++ [Byte.x0a; Byte.x0a]
  ∧ (frame text = frame text' ↔ Js.usv text = Js.usv text')
  ∧ frame lone_surrogate = frame other_surrogate
  ∧ lone_surrogate ≠ other_surrogate.
Proof.
  split; [|split; [|split; [reflexivity | discriminate]]].
  - unfold frame, encode. rewrite usv_data_frame. unfold data_frame.
    by rewrite !list_byte_of_append.
  - unfold frame. rewrite encode_eq, !usv_data_frame. split.
    + apply data_frame_inj.
    + by intros ->.
Qed.

(** ** What a write leaves alone *)

(** X22: a write never touches another key: whatever the answers and
    whatever the backend does, every key other than the one the store
    keeps the record at, ("responses", now, the name with every
    unpaired surrogate replaced by U+FFFD), holds after the write what
    it held before; and unless the reply is the 200 success, the whole
    store is as it was. *)
Theorem write_touches_only_its_key (f : KvFaults) (now : Z) (name : string)
    (responses : Js.value) (kv : Store) (k' : KvKey) :
  k' ≠ ("responses", now, Js.usv name) →
  (post_responses f now name responses kv).2 !! k' = kv !! k'
  ∧ ((post_responses f now name responses kv).1 = Json 200 {| success := true |}
     ∨ (post_responses f now name responses kv).2 = kv).
Proof.
  intros Hk. destruct (accepted responses) eqn:Hacc.
  - rewrite post_responses_accepted by done.
    destruct (set_fails f _); cbn [fst snd].
    + split; [done | by right].
    + split; [by apply lookup_insert_ne | by left].
  - rewrite post_responses_rejected by done. split; [done | by right].
Qed.

(** A write at 1 for the name b leaves the a at 1 alone. *)
Lemma write_touches_only_its_key_witness :
  ("responses", 1, "a") ≠ ("responses", 1, Js.usv "b")
  ∧ (post_responses no_faults 1 "b" (Js.Obj []) store_abb).2 !! ("responses", 1, "a")
    = store_abb !! ("responses", 1, "a").
Proof.
  assert (("responses", 1, "a") ≠ ("responses", 1, Js.usv "b")) as H
    by discriminate.
  split; [exact H|].
  exact (proj1 (write_touches_only_its_key no_faults 1 "b" (Js.Obj [])
                  store_abb ("responses", 1, "a") H)).
Defined.
